(** * Shallow embedding of [compile_css.py] (RobustCSSCompiler)

    Python [str] values are modelled as Rocq [string]s (byte strings);
    the external tinycss2 tokenizer/parser is a parameter of the
    processing functions ([parser] below), and a small executable model
    of it is given for the end-to-end runs. *)

From Stdlib Require Import Ascii String List ZArith Lia Bool Sorting Permutation.
Import ListNotations.
Open Scope string_scope.

(* ------------------------------------------------------------------ *)
(** ** Characters and Python string primitives *)

Definition chr (n : nat) : ascii := ascii_of_nat n.
Definition nlc : ascii := chr 10.
Definition nl : string := String nlc EmptyString.
Definition dq : ascii := chr 34.
Definition sq : ascii := chr 39.
Definition bsl : ascii := chr 92.

Definition ascii_eqb (a b : ascii) : bool := Ascii.eqb a b.

(** Python's whitespace characters ([str.isspace], the class [\\s] of
    [re], and the separators of [str.strip()] and [str.split()]):
    U+0009-U+000D, U+001C-U+0020, U+0085, U+00A0, U+1680, U+2000-U+200A,
    U+2028, U+2029, U+202F, U+205F and U+3000.  Strings are UTF-8 byte
    strings; [ws1], [ws2] and [ws3] recognise the one-, two- and
    three-byte encodings of these characters. *)
Definition ws1 (a : ascii) : bool :=
  let n := nat_of_ascii a in (((9 <=? n) && (n <=? 13)) || ((28 <=? n) && (n <=? 32)))%nat.

Definition ws2 (a b : ascii) : bool :=
  let n := nat_of_ascii a in let m := nat_of_ascii b in
  ((n =? 194) && ((m =? 133) || (m =? 160)))%nat.

Definition ws3 (a b c : ascii) : bool :=
  let n := nat_of_ascii a in let m := nat_of_ascii b in let k := nat_of_ascii c in
  ((n =? 225) && (m =? 154) && (k =? 128)
   || (n =? 226) && (m =? 128)
      && (((128 <=? k) && (k <=? 138)) || (k =? 168) || (k =? 169) || (k =? 175))
   || (n =? 226) && (m =? 129) && (k =? 159)
   || (n =? 227) && (m =? 128) && (k =? 128))%nat.

(** The length in bytes of the whitespace character [s] starts with, or 0
    when [s] does not start with one. *)
Definition ws_len (s : string) : nat :=
  match s with
  | EmptyString => 0
  | String a r =>
    if ws1 a then 1 else
    match r with
    | EmptyString => 0
    | String b r2 =>
      if ws2 a b then 2 else
      match r2 with
      | EmptyString => 0
      | String c _ => if ws3 a b c then 3 else 0
      end
    end
  end.

(** The same for the whitespace character a string ends with, given the
    string reversed ([x] is its last byte, [y] the one before, ...). *)
Definition rws_len (rs : string) : nat :=
  match rs with
  | EmptyString => 0
  | String x r =>
    if ws1 x then 1 else
    match r with
    | EmptyString => 0
    | String y r2 =>
      if ws2 y x then 2 else
      match r2 with
      | EmptyString => 0
      | String z _ => if ws3 z y x then 3 else 0
      end
    end
  end.

(** Drop the leading characters recognised by [f] ([f s] is the length of
    the one [s] starts with, 0 for none); [k] more bytes of the character
    being dropped remain to be skipped. *)
Fixpoint skip_with (f : string -> nat) (k : nat) (s : string) : string :=
  match s with
  | EmptyString => EmptyString
  | String c r =>
    match k with
    | S k' => skip_with f k' r
    | O => match f s with O => s | S k' => skip_with f k' r end
    end
  end.

(** [str.lstrip()] *)
Definition lstrip (s : string) : string := skip_with ws_len 0 s.

Fixpoint rev_str (s : string) : string :=
  match s with
  | EmptyString => EmptyString
  | String c r => rev_str r ++ String c EmptyString
  end.

(** [str.rstrip()] *)
Definition rstrip (s : string) : string := rev_str (skip_with rws_len 0 (rev_str s)).

(** [str.strip()] *)
Definition py_strip (s : string) : string := rstrip (lstrip s).

Definition is_empty (s : string) : bool :=
  match s with EmptyString => true | _ => false end.

(** [s.startswith(p)] *)
Definition startswith (s p : string) : bool := String.prefix p s.

(** [p in s] for strings *)
Fixpoint contains (p s : string) : bool :=
  if String.prefix p s then true
  else match s with
       | EmptyString => false
       | String _ r => contains p r
       end.

(** [s.endswith(p)] *)
Definition endswith (s p : string) : bool :=
  String.prefix (rev_str p) (rev_str s).

(** [s.replace(old, new)] for a non-empty [old]: left-to-right,
    non-overlapping occurrences. *)
Fixpoint replace_fuel (fuel : nat) (old new s : string) : string :=
  match fuel with
  | O => s
  | S f =>
    match s with
    | EmptyString => EmptyString
    | String c r =>
      if String.prefix old s
      then new ++ replace_fuel f old new
                  (String.substring (String.length old)
                     (String.length s - String.length old) s)
      else String c (replace_fuel f old new r)
    end
  end.

Definition py_replace (old new s : string) : string :=
  replace_fuel (String.length s) old new s.

(** tinycss2's [ascii_lower] (ASCII letters only), used for
    [lower_name] and [lower_at_keyword]. *)
Definition lower_char (c : ascii) : ascii :=
  let n := nat_of_ascii c in
  if ((65 <=? n) && (n <=? 90))%nat then ascii_of_nat (n + 32) else c.

Fixpoint ascii_lower (s : string) : string :=
  match s with
  | EmptyString => EmptyString
  | String c r => String (lower_char c) (ascii_lower r)
  end.

Definition empty_comment : string := "/**/".

(* ------------------------------------------------------------------ *)
(** ** [split_selectors] *)

Module Split.

Record st := mk {
  result : list string;      (* accumulated selectors, in order *)
  current : list ascii;      (* current buffer, reversed *)
  depth : Z;
  in_string : bool;
  quote_char : option ascii
}.

Definition flush (cur : list ascii) (res : list string) : list string :=
  match cur with
  | [] => res
  | _ =>
    let sel := py_strip (string_of_list_ascii (rev cur)) in
    if is_empty sel then res else app res [sel]
  end.

(** One iteration of the [for i, char in enumerate(selector)] loop;
    [prev] is [selector[i-1]] ([None] when [i == 0]). *)
Definition step (prev : option ascii) (char : ascii) (s : st) : st :=
  let '(ins, qc) :=
    if (ascii_eqb char dq || ascii_eqb char sq)
       && match prev with None => true | Some p => negb (ascii_eqb p bsl) end
    then
      if negb (in_string s) then (true, Some char)
      else if match quote_char s with
              | Some q => ascii_eqb char q | None => false end
      then (false, None)
      else (in_string s, quote_char s)
    else (in_string s, quote_char s) in
  if ins then mk (result s) (char :: current s) (depth s) ins qc
  else if ascii_eqb char "("%char || ascii_eqb char "["%char || ascii_eqb char "{"%char
  then mk (result s) (char :: current s) (depth s + 1)%Z ins qc
  else if ascii_eqb char ")"%char || ascii_eqb char "]"%char || ascii_eqb char "}"%char
  then mk (result s) (char :: current s) (depth s - 1)%Z ins qc
  else if ascii_eqb char ","%char && Z.eqb (depth s) 0
  then mk (flush (current s) (result s)) [] (depth s) ins qc
  else mk (result s) (char :: current s) (depth s) ins qc.

Fixpoint loop (prev : option ascii) (sel : string) (s : st) : st :=
  match sel with
  | EmptyString => s
  | String c r => loop (Some c) r (step prev c s)
  end.

End Split.

Definition split_selectors (selector : string) : list string :=
  let s := Split.loop None selector (Split.mk [] [] 0 false None) in
  Split.flush (Split.current s) (Split.result s).

(* ------------------------------------------------------------------ *)
(** ** Ordered dictionaries ([OrderedDict]) as association lists *)

Section OrderedDict.
Context {V : Type}.

Fixpoint od_get (k : string) (d : list (string * V)) : option V :=
  match d with
  | [] => None
  | (k', v) :: d' => if String.eqb k k' then Some v else od_get k d'
  end.

Definition od_mem (k : string) (d : list (string * V)) : bool :=
  match od_get k d with Some _ => true | None => false end.

(** [d[k] = v]: update in place, or append a new key at the end. *)
Fixpoint od_set (k : string) (v : V) (d : list (string * V)) : list (string * V) :=
  match d with
  | [] => [(k, v)]
  | (k', v') :: d' =>
    if String.eqb k k' then (k', v) :: d' else (k', v') :: od_set k v d'
  end.

(** [d.update(other)] *)
Definition od_update (d other : list (string * V)) : list (string * V) :=
  fold_left (fun acc kv => od_set (fst kv) (snd kv) acc) other d.

End OrderedDict.

(* ------------------------------------------------------------------ *)
(** ** [CSSRule] *)

Record CSSRule := mkRule {
  selector : string;
  properties : list (string * string)
}.

Definition new_rule (sel : string) : CSSRule := mkRule (py_strip sel) [].

Definition add_property (r : CSSRule) (prop value : string) : CSSRule :=
  mkRule (selector r) (od_set (py_strip prop) (py_strip value) (properties r)).

Definition merge_with (r other : CSSRule) : CSSRule :=
  mkRule (selector r) (od_update (properties r) (properties other)).

Fixpoint join_lines (ls : list string) : string :=
  match ls with
  | [] => ""
  | [l] => l
  | l :: ls' => l ++ nl ++ join_lines ls'
  end.

Definition to_css (r : CSSRule) (indent : string) : string :=
  match properties r with
  | [] => ""
  | ps =>
    join_lines
      (app [selector r ++ " {"]
        (app (map (fun pv => indent ++ fst pv ++ ": " ++ snd pv ++ ";") ps)
             ["}"]))
  end.

Definition four : string := "    ".
Definition eight : string := "        ".

(* ------------------------------------------------------------------ *)
(** ** The external parser (tinycss2) as seen by the compiler

    Token lists are represented by their serialisation, i.e. the text
    [tinycss2.serialize] produces for them. *)

Record decl := mkDecl {
  d_name : string;       (* [decl.name]; [lower_name] is its ASCII lowering *)
  d_value : string;      (* [serialize(decl.value)] *)
  d_important : bool
}.

Inductive decl_item :=
| DDecl (d : decl)
| DError
| DOther.                (* at-rules or other nodes in a declaration list *)

Inductive node :=
| QualifiedRule (prelude content : string)
| AtRule (at_keyword prelude : string) (content : option string)
| ErrorNode (message : string).

Record parser := mkParser {
  parse_stylesheet : string -> list node;
  parse_declaration_list : string -> list decl_item
}.

(** [serialize_tokens]: serialize, then drop the empty comments. *)
Definition serialize_tokens (toks : string) : string :=
  py_replace empty_comment "" toks.

(** [serialize([node])] for an at-rule. *)
Definition serialize_node (kw prelude : string) (content : option string) : string :=
  "@" ++ kw ++ prelude ++
  match content with
  | Some b => "{" ++ b ++ "}"
  | None => ";"
  end.

(* ------------------------------------------------------------------ *)
(** ** Compiler state *)

Record stats := mkStats {
  rules_parsed : nat;
  selectors_split : nat;
  properties_merged : nat;
  at_rules_n : nat;
  media_queries_n : nat;
  parse_errors : nat
}.

Definition stats0 : stats := mkStats 0 0 0 0 0 0.

Record at_entry := mkAt {
  ar_keyword : string;
  ar_name : option string;   (* the ['name'] key, only set for keyframes *)
  ar_content : string
}.

Definition scope := list (string * CSSRule).

Record compiler := mkC {
  rules : scope;
  at_rules : list at_entry;
  media_queries : list (string * scope);
  cstats : stats
}.

Definition init : compiler := mkC [] [] [] stats0.

Definition bump_rules_parsed (s : stats) : stats :=
  mkStats (S (rules_parsed s)) (selectors_split s) (properties_merged s)
          (at_rules_n s) (media_queries_n s) (parse_errors s).
Definition bump_selectors_split (s : stats) : stats :=
  mkStats (rules_parsed s) (S (selectors_split s)) (properties_merged s)
          (at_rules_n s) (media_queries_n s) (parse_errors s).
Definition bump_properties_merged (s : stats) : stats :=
  mkStats (rules_parsed s) (selectors_split s) (S (properties_merged s))
          (at_rules_n s) (media_queries_n s) (parse_errors s).
Definition bump_at_rules (s : stats) : stats :=
  mkStats (rules_parsed s) (selectors_split s) (properties_merged s)
          (S (at_rules_n s)) (media_queries_n s) (parse_errors s).
Definition bump_media_queries (s : stats) : stats :=
  mkStats (rules_parsed s) (selectors_split s) (properties_merged s)
          (at_rules_n s) (S (media_queries_n s)) (parse_errors s).
Definition bump_parse_errors (s : stats) : stats :=
  mkStats (rules_parsed s) (selectors_split s) (properties_merged s)
          (at_rules_n s) (media_queries_n s) (S (parse_errors s)).

Definition with_stats (c : compiler) (s : stats) : compiler :=
  mkC (rules c) (at_rules c) (media_queries c) s.

(* ------------------------------------------------------------------ *)
(** ** Processing ([process_stylesheet] and the methods it calls) *)

Section Process.
Variable P : parser.

(** [parse_declaration_block]: returns the declarations as an ordered
    dictionary and the updated statistics. *)
Definition decl_step (acc : list (string * string) * stats) (it : decl_item)
  : list (string * string) * stats :=
  let '(props, s) := acc in
  match it with
  | DDecl d =>
    let prop := ascii_lower (d_name d) in
    let value := py_strip (serialize_tokens (d_value d)) in
    let value := if d_important d then value ++ " !important" else value in
    (od_set prop value props, s)
  | DError => (props, bump_parse_errors s)
  | DOther => (props, s)
  end.

Definition parse_declaration_block (content : string) (s : stats)
  : list (string * string) * stats :=
  fold_left decl_step (parse_declaration_list P content) ([], s).

(** [for prop, value in properties.items(): target_dict[sel].add_property(...)] *)
Definition add_props (props : list (string * string)) (r : CSSRule) (s : stats)
  : CSSRule * stats :=
  fold_left (fun acc pv => (add_property (fst acc) (fst pv) (snd pv),
                            bump_properties_merged (snd acc)))
            props (r, s).

(** The [for sel in selectors] loop of [process_qualified_rule]. *)
Definition sel_step (props : list (string * string))
  (acc : scope * stats) (sel : string) : scope * stats :=
  let '(d, s) := acc in
  let sel := py_strip sel in
  if is_empty sel then (d, s)
  else
    let s := bump_selectors_split s in
    let d := if od_mem sel d then d else od_set sel (new_rule sel) d in
    let r := match od_get sel d with Some r => r | None => new_rule sel end in
    let '(r', s') := add_props props r s in
    (od_set sel r' d, s').

Definition add_to_scope (props : list (string * string)) (sels : list string)
  (d : scope) (s : stats) : scope * stats :=
  fold_left (sel_step props) sels (d, s).

(** [if media_condition] : [None] and the empty string both select the
    top-level dictionary. *)
Definition truthy (mc : option string) : option string :=
  match mc with
  | Some c => if is_empty c then None else Some c
  | None => None
  end.

Definition process_qualified_rule (prelude content : string)
  (mc : option string) (c : compiler) : compiler :=
  let c1 := with_stats c (bump_rules_parsed (cstats c)) in
  let sel := py_strip (serialize_tokens prelude) in
  if is_empty sel then c1 else
  let '(props, s2) := parse_declaration_block content (cstats c1) in
  let c2 := with_stats c1 s2 in
  match props with
  | [] => c2
  | _ =>
    let selectors := split_selectors sel in
    match truthy mc with
    | Some cond =>
      let mq := if od_mem cond (media_queries c2) then media_queries c2
                else od_set cond [] (media_queries c2) in
      let target := match od_get cond mq with Some t => t | None => [] end in
      let '(t', s3) := add_to_scope props selectors target (cstats c2) in
      mkC (rules c2) (at_rules c2) (od_set cond t' mq) s3
    | None =>
      let '(t', s3) := add_to_scope props selectors (rules c2) (cstats c2) in
      mkC t' (at_rules c2) (media_queries c2) s3
    end
  end.

(** The loop over the re-parsed content of a [@media] block: only
    qualified rules are processed. *)
Definition media_body (cond : string) (children : list node) (c : compiler)
  : compiler :=
  fold_left (fun c ch =>
               match ch with
               | QualifiedRule p b => process_qualified_rule p b (Some cond) c
               | _ => c
               end) children c.

Fixpoint find_keyframes (name : string) (l : list at_entry) : bool :=
  match l with
  | [] => false
  | a :: l' =>
    (String.eqb (ar_keyword a) "keyframes"
     && match ar_name a with Some n => String.eqb n name | None => false end)
    || find_keyframes name l'
  end.

(** [existing_keyframe['content'] = keyframe_content] on the first match. *)
Fixpoint replace_keyframes (name content : string) (l : list at_entry)
  : list at_entry :=
  match l with
  | [] => []
  | a :: l' =>
    if String.eqb (ar_keyword a) "keyframes"
       && match ar_name a with Some n => String.eqb n name | None => false end
    then mkAt (ar_keyword a) (ar_name a) content :: l'
    else a :: replace_keyframes name content l'
  end.

Definition process_at_rule (kw prelude : string) (content : option string)
  (c : compiler) : compiler :=
  let keyword := ascii_lower kw in
  if String.eqb keyword "media" then
    let c1 := with_stats c (bump_media_queries (cstats c)) in
    let cond := py_strip (serialize_tokens prelude) in
    match content with
    | Some b =>
      if is_empty b then c1
      else media_body cond (parse_stylesheet P (serialize_tokens b)) c1
    | None => c1
    end
  else if String.eqb keyword "keyframes" then
    let s1 := bump_at_rules (cstats c) in
    let name := py_strip (serialize_tokens prelude) in
    let text := serialize_node kw prelude content in
    let ars := if find_keyframes name (at_rules c)
               then replace_keyframes name text (at_rules c)
               else app (at_rules c) [mkAt keyword (Some name) text] in
    mkC (rules c) ars (media_queries c) s1
  else
    mkC (rules c) (app (at_rules c) [mkAt keyword None (serialize_node kw prelude content)])
        (media_queries c) (bump_at_rules (cstats c)).

Definition process_node (n : node) (c : compiler) : compiler :=
  match n with
  | QualifiedRule p b => process_qualified_rule p b None c
  | AtRule kw p b => process_at_rule kw p b c
  | ErrorNode _ => with_stats c (bump_parse_errors (cstats c))
  end.

Definition process_stylesheet (ns : list node) (c : compiler) : compiler :=
  fold_left (fun c n => process_node n c) ns c.

End Process.

(* ------------------------------------------------------------------ *)
(** ** Stable sorting ([sorted] / [list.sort] with a key) *)

Section SortBy.
Context {A K : Type} (key : A -> K) (leb : K -> K -> bool).

(** Insert [x], which precedes every element of [l] in the input, before
    the first element whose key is not smaller than its own. *)
Fixpoint insert_by (x : A) (l : list A) : list A :=
  match l with
  | [] => [x]
  | y :: l' => if leb (key x) (key y) then x :: l else y :: insert_by x l'
  end.

Fixpoint sort_by (l : list A) : list A :=
  match l with
  | [] => []
  | x :: l' => insert_by x (sort_by l')
  end.

End SortBy.

(* ------------------------------------------------------------------ *)
(** ** [sort_rules] *)

Definition dangerous_patterns : list string :=
  [":link"; ":visited"; ":hover"; ":focus"; ":active";
   ":first-child"; ":last-child"; ":nth-"].

Definition is_dangerous (sel : string) : bool :=
  existsb (fun p => contains p sel) dangerous_patterns.

(** [OrderedDict(items)] *)
Definition od_of {V} (items : list (string * V)) : list (string * V) :=
  od_update [] items.

(** [sorted(items, key=lambda x: x[0].lower())]: [str_lower] is Python's
    [str.lower] (a Unicode case mapping, left as a parameter); lowered
    selectors are compared as UTF-8 byte strings, which orders them as
    Python orders [str]s, by code points. *)
Definition sort_by_lower {V} (str_lower : string -> string) (items : list (string * V))
  : list (string * V) :=
  sort_by (fun kv => str_lower (fst kv)) String.leb items.

Definition sort_scope_safe (str_lower : string -> string) (d : scope) : scope :=
  let safe := od_of (filter (fun kv => negb (is_dangerous (fst kv))) d) in
  let dang := od_of (filter (fun kv => is_dangerous (fst kv)) d) in
  od_update (od_update [] dang) (od_of (sort_by_lower str_lower safe)).

Definition sort_scope_unsafe (str_lower : string -> string) (d : scope) : scope :=
  od_of (sort_by_lower str_lower d).

Definition sort_rules (str_lower : string -> string) (safe_mode : bool) (c : compiler)
  : compiler :=
  let f := if safe_mode then sort_scope_safe str_lower else sort_scope_unsafe str_lower in
  mkC (f (rules c)) (at_rules c)
      (map (fun cd => (fst cd, f (snd cd))) (media_queries c)) (cstats c).

(* ------------------------------------------------------------------ *)
(** ** Regular expressions used by [generate_output] *)

Fixpoint take_while (p : ascii -> bool) (s : string) : string :=
  match s with
  | String c r => if p c then String c (take_while p r) else EmptyString
  | EmptyString => EmptyString
  end.

(** The code point whose UTF-8 encoding [s] starts with, and the length
    of that encoding. *)
Definition utf8_head (s : string) : option (nat * Z) :=
  let byte (a : ascii) := Z.of_nat (nat_of_ascii a) in
  let cont (a : ascii) := (byte a - 128)%Z in
  match s with
  | EmptyString => None
  | String a r =>
    let n := byte a in
    if (n <? 128)%Z then Some (1%nat, n) else
    match r with
    | EmptyString => None
    | String b r2 =>
      if ((192 <=? n) && (n <? 224))%Z then Some (2%nat, ((n - 192) * 64 + cont b)%Z) else
      match r2 with
      | EmptyString => None
      | String c r3 =>
        if ((224 <=? n) && (n <? 240))%Z
        then Some (3%nat, (((n - 224) * 64 + cont b) * 64 + cont c)%Z) else
        match r3 with
        | EmptyString => None
        | String d _ =>
          if ((240 <=? n) && (n <? 248))%Z
          then Some (4%nat, ((((n - 240) * 64 + cont b) * 64 + cont c) * 64 + cont d)%Z)
          else None
        end
      end
    end
  end.

(** The code points of the digits zero of the 66 runs of ten decimal
    digits (category Nd) of Unicode 14.0, the version of Python 3.11:
    [\d] matches these digits, and [int] gives each its value. *)
Definition nd_zeros : list Z :=
  [0x30; 0x660; 0x6f0; 0x7c0; 0x966; 0x9e6; 0xa66; 0xae6;
   0xb66; 0xbe6; 0xc66; 0xce6; 0xd66; 0xde6; 0xe50; 0xed0;
   0xf20; 0x1040; 0x1090; 0x17e0; 0x1810; 0x1946; 0x19d0; 0x1a80;
   0x1a90; 0x1b50; 0x1bb0; 0x1c40; 0x1c50; 0xa620; 0xa8d0; 0xa900;
   0xa9d0; 0xa9f0; 0xaa50; 0xabf0; 0xff10; 0x104a0; 0x10d30; 0x11066;
   0x110f0; 0x11136; 0x111d0; 0x112f0; 0x11450; 0x114d0; 0x11650; 0x116c0;
   0x11730; 0x118e0; 0x11950; 0x11c50; 0x11d50; 0x11da0; 0x16a60; 0x16ac0;
   0x16b50; 0x1d7ce; 0x1d7d8; 0x1d7e2; 0x1d7ec; 0x1d7f6; 0x1e140; 0x1e2f0;
   0x1e950; 0x1fbf0]%Z.

(** The decimal digit [s] starts with: the length of its encoding and its
    value. *)
Definition digit_at (s : string) : option (nat * Z) :=
  match utf8_head s with
  | Some (len, cp) =>
    match find (fun z => (z <=? cp) && (cp <=? z + 9))%Z nd_zeros with
    | Some z => Some (len, (cp - z)%Z)
    | None => None
    end
  | None => None
  end.

(** [int] of the longest run of decimal digits at the start of [s], with
    [acc] the value of the digits already read ([None] for none yet) and
    [k] more bytes of the current digit still to skip. *)
Fixpoint digits_aux (k : nat) (s : string) (acc : option Z) : option Z :=
  match s with
  | EmptyString => acc
  | String _ r =>
    match k with
    | S k' => digits_aux k' r acc
    | O =>
      match digit_at s with
      | Some (len, v) =>
        digits_aux (len - 1) r
          (Some (match acc with Some a => a * 10 + v | None => v end)%Z)
      | None => acc
      end
    end
  end.

(** [\s*(\d+)] right after a literal prefix: the value of the digits. *)
Definition number_after (r : string) : option Z := digits_aux 0 (lstrip r) None.

(** [re.search(r'max-width:\s*(\d+)', s)] *)
Fixpoint search_max_width (s : string) : option Z :=
  match (if String.prefix "max-width:" s
         then number_after (String.substring 10 (String.length s - 10) s)
         else None) with
  | Some w => Some w
  | None =>
    match s with
    | EmptyString => None
    | String _ r => search_max_width r
    end
  end.

(** [re.search(r'(max-width|min-width):\s*(\d+)', s)]: the first match,
    with [true] for [max-width]. *)
Fixpoint search_width (s : string) : option (bool * Z) :=
  match (if String.prefix "max-width:" s
         then option_map (fun w => (true, w))
                (number_after (String.substring 10 (String.length s - 10) s))
         else if String.prefix "min-width:" s
         then option_map (fun w => (false, w))
                (number_after (String.substring 10 (String.length s - 10) s))
         else None) with
  | Some m => Some m
  | None =>
    match s with
    | EmptyString => None
    | String _ r => search_width r
    end
  end.

(** The longest prefix of [s] without whitespace. *)
Fixpoint take_nonws (s : string) : string :=
  match s with
  | EmptyString => EmptyString
  | String c r => if (ws_len s =? 0)%nat then String c (take_nonws r) else EmptyString
  end.

(** [re.match(r'@keyframes\s+(\S+)', content)] *)
Definition match_keyframes_name (content : string) : option string :=
  if String.prefix "@keyframes" content then
    let r := String.substring 10 (String.length content - 10) content in
    if (ws_len r =? 0)%nat then None
    else
      let nm := take_nonws (lstrip r) in
      if is_empty nm then None else Some nm
  else None.

(** The newlines written for a run of [n] pending newlines. *)
Definition nl_flush (n : nat) : string :=
  if (3 <=? n)%nat then nl ++ nl else String.concat "" (repeat nl n).

(** [re.sub(r'\n{3,}', '\n\n', s)]: [n] newlines are pending. *)
Fixpoint collapse_nl (n : nat) (s : string) : string :=
  let flush := if (3 <=? n)%nat then nl ++ nl
               else String.concat "" (repeat nl n) in
  match s with
  | EmptyString => flush
  | String c r =>
    if ascii_eqb c nlc then collapse_nl (S n) r
    else flush ++ String c (collapse_nl 0 r)
  end.

Definition finalize (result : string) : string :=
  let result := collapse_nl 0 result in
  if endswith result nl then result else result ++ nl.

(* ------------------------------------------------------------------ *)
(** ** [generate_output] *)

Definition sconcat (l : list string) : string := String.concat "" l.
Definition nl2 : string := nl ++ nl.

(** [s.split('\n')] *)
Fixpoint split_lines_aux (s cur : string) : list string :=
  match s with
  | EmptyString => [cur]
  | String c r =>
    if ascii_eqb c nlc then cur :: split_lines_aux r ""
    else split_lines_aux r (cur ++ String c "")
  end.
Definition split_lines (s : string) : list string := split_lines_aux s "".

(** [s.split()]: the whitespace-separated words; [k] more bytes of the
    whitespace character being skipped remain. *)
Fixpoint words_aux (k : nat) (s cur : string) : list string :=
  match s with
  | EmptyString => if is_empty cur then [] else [cur]
  | String c r =>
    match k with
    | S k' => words_aux k' r cur
    | O =>
      match ws_len s with
      | O => words_aux 0 r (cur ++ String c "")
      | S k' => if is_empty cur then words_aux k' r "" else cur :: words_aux k' r ""
      end
    end
  end.
Definition words (s : string) : list string := words_aux 0 s "".

Definition header : string :=
  "/* ================================================== */" ++ nl ++
  "/* CSS COMPILÉ AVEC PARSEUR ROBUSTE */" ++ nl ++
  "/* ================================================== */" ++ nl2.

(** [deduplicated_at_rules[idx] = at_rule] *)
Fixpoint list_set {A} (i : nat) (x : A) (l : list A) : list A :=
  match l, i with
  | [], _ => []
  | _ :: l', O => x :: l'
  | y :: l', S i' => y :: list_set i' x l'
  end.

Definition dedup_step (acc : list (string * nat) * list at_entry) (a : at_entry)
  : list (string * nat) * list at_entry :=
  let '(seen, out) := acc in
  if String.eqb (ar_keyword a) "keyframes" then
    let name := match ar_name a with Some n => n | None => "" end in
    let name := if is_empty name
                then match match_keyframes_name (ar_content a) with
                     | Some m => m | None => name end
                else name in
    if is_empty name then (seen, app out [a])
    else match od_get name seen with
         | Some idx => (seen, list_set idx a out)
         | None => (od_set name (length out) seen, app out [a])
         end
  else (seen, app out [a]).

Definition dedup_at_rules (l : list at_entry) : list at_entry :=
  snd (fold_left dedup_step l ([], [])).

Definition emit_at_rule (a : at_entry) : string :=
  let content := py_replace empty_comment "" (ar_content a) in
  content ++ (if endswith content nl then "" else nl).

Definition at_rules_section (ars : list at_entry) : string :=
  match ars with
  | [] => ""
  | _ => "/* ===== AT-RULES PRÉSERVÉES ===== */" ++ nl ++
         sconcat (map emit_at_rule (dedup_at_rules ars)) ++ nl
  end.

Definition is_root (k : string) : bool := startswith k ":root".
Definition base_selectors : list string := ["*"; "html"; "body"].
Definition is_base (k : string) : bool :=
  existsb (String.eqb k) base_selectors || startswith k "::".

Definition emit_rule (kv : string * CSSRule) : string :=
  to_css (snd kv) four ++ nl2.

Definition root_section (root : scope) : string :=
  match root with
  | [] => ""
  | _ => "/* ===== VARIABLES CSS ===== */" ++ nl ++ sconcat (map emit_rule root)
  end.

Definition base_section (base : scope) : string :=
  match base with
  | [] => ""
  | _ =>
    "/* ===== RESET ET BASE ===== */" ++ nl ++
    sconcat (map (fun sel => match od_get sel base with
                             | Some r => to_css r four ++ nl2
                             | None => "" end) base_selectors) ++
    sconcat (map emit_rule
                 (filter (fun kv => negb (existsb (String.eqb (fst kv)) base_selectors))
                         base))
  end.

Definition is_heading (sel : string) : bool :=
  existsb (startswith sel) ["h1"; "h2"; "h3"; "h4"; "h5"; "h6"].

Inductive main_group := GHeading | GClass | GId | GPseudo | GElement.

Definition main_group_of (sel : string) : main_group :=
  if is_heading sel then GHeading
  else if startswith sel "." then GClass
  else if startswith sel "#" then GId
  else if contains ":" sel then GPseudo
  else GElement.

Definition main_group_eqb (a b : main_group) : bool :=
  match a, b with
  | GHeading, GHeading | GClass, GClass | GId, GId
  | GPseudo, GPseudo | GElement, GElement => true
  | _, _ => false
  end.

Definition main_section (main : scope) : string :=
  match main with
  | [] => ""
  | _ =>
    "/* ===== RÈGLES PRINCIPALES ===== */" ++ nl ++
    sconcat (map (fun g =>
      sconcat (map (fun kv => py_replace empty_comment "" (to_css (snd kv) four) ++ nl2)
                   (od_of (filter (fun kv => main_group_eqb (main_group_of (fst kv)) g)
                                  main))))
      [GHeading; GElement; GClass; GId; GPseudo])
  end.

(** Normalisation of a media condition. *)
Definition normalize_condition (c : string) : string :=
  let n := String.concat " " (words c) in
  let n := py_replace ": " ":" (py_replace " :" ":" n) in
  let n := py_replace "( " "(" (py_replace " (" "(" n) in
  py_replace ") " ")" (py_replace " )" ")" n).

Definition merge_rule_into (m : scope) (sr : string * CSSRule) : scope :=
  match od_get (fst sr) m with
  | Some e => od_set (fst sr) (merge_with e (snd sr)) m
  | None => od_set (fst sr) (snd sr) m
  end.

Definition merge_step (merged : list (string * scope)) (cr : string * scope)
  : list (string * scope) :=
  let n := normalize_condition (fst cr) in
  let merged := if od_mem n merged then merged else od_set n [] merged in
  let m := match od_get n merged with Some m => m | None => [] end in
  od_set n (fold_left merge_rule_into (snd cr) m) merged.

Definition merge_queries (mq : list (string * scope)) : list (string * scope) :=
  fold_left merge_step mq [].

Inductive category := CDesktop | CTablet | CMobile | CPrint | CPref | COther.

Definition classify (cond : string) : category :=
  if contains "print" cond then CPrint
  else if contains "prefers-" cond then CPref
  else if contains "max-width" cond then
    match search_max_width cond with
    | Some w => if (w <=? 768)%Z then CMobile
                else if (w <=? 1024)%Z then CTablet
                else COther
    | None => COther
    end
  else if contains "min-width" cond && negb (contains "max-width" cond) then CDesktop
  else COther.

Definition category_eqb (a b : category) : bool :=
  match a, b with
  | CDesktop, CDesktop | CTablet, CTablet | CMobile, CMobile
  | CPrint, CPrint | CPref, CPref | COther, COther => true
  | _, _ => false
  end.

Definition group_of (g : category) (merged : list (string * scope))
  : list (string * scope) :=
  od_of (filter (fun cr => category_eqb (classify (fst cr)) g) merged).

Definition sort_key (cond : string) : Z :=
  match search_width cond with
  | Some (true, w) => (- w)%Z
  | Some (false, w) => w
  | None => 0%Z
  end.

(** [sorted_queries.sort(key=lambda x: x[0])] *)
Definition sort_group (q : list (string * scope)) : list (string * scope) :=
  sort_by (fun cr => sort_key (fst cr)) Z.leb q.

Definition emit_media_rule (kv : string * CSSRule) : string :=
  match properties (snd kv) with
  | [] => ""
  | _ =>
    sconcat (map (fun line => if is_empty (py_strip line) then ""
                              else four ++ py_replace empty_comment "" line ++ nl)
                 (split_lines (to_css (snd kv) eight))) ++ nl
  end.

Definition emit_media (cr : string * scope) : string :=
  "@media " ++ fst cr ++ " {" ++ nl ++
  sconcat (map emit_media_rule (snd cr)) ++ "}" ++ nl2.

(** [if queries: output.append(f"\n/* {section_name} */\n")] followed
    by the [@media] blocks of the section. *)
Definition emit_section (sec : string * list (string * scope)) : string :=
  match snd sec with
  | [] => ""
  | q => nl ++ "/* " ++ fst sec ++ " */" ++ nl ++ sconcat (map emit_media q)
  end.

(** The emitted media sections, in output order: the desktop, mobile
    and other groups sorted by width, then the preference and print
    groups in merge order. *)
Definition media_layout (merged : list (string * scope))
  : list (string * list (string * scope)) :=
  [("--- DESKTOP ---", sort_group (group_of CDesktop merged));
   ("--- MOBILE ---", sort_group (group_of CMobile merged));
   ("--- AUTRES ---", sort_group (group_of COther merged));
   ("--- PRÉFÉRENCES UTILISATEUR ---", group_of CPref merged);
   ("--- PRINT ---", group_of CPrint merged)].

Definition media_section (mq : list (string * scope)) : string :=
  match mq with
  | [] => ""
  | _ =>
    "/* ===== MEDIA QUERIES ===== */" ++ nl ++
    sconcat (map emit_section (media_layout (merge_queries mq)))
  end.

Definition generate_output (c : compiler) : string :=
  let root := od_of (filter (fun kv => is_root (fst kv)) (rules c)) in
  let base := od_of (filter (fun kv => is_base (fst kv)) (rules c)) in
  let main := od_of (filter (fun kv => negb (od_mem (fst kv) root)
                                       && negb (od_mem (fst kv) base)) (rules c)) in
  finalize
    (header ++ at_rules_section (at_rules c) ++ root_section root ++
     base_section base ++ main_section main ++ media_section (media_queries c)).

(** [compile] without the file I/O. *)
Definition compile (P : parser) (str_lower : string -> string)
  (alphabetical safe_mode : bool) (css : string) : string :=
  let c := process_stylesheet P (parse_stylesheet P css) init in
  let c := if alphabetical then sort_rules str_lower safe_mode c else c in
  generate_output c.

(* ------------------------------------------------------------------ *)
(** ** An executable model of the tinycss2 entry points

    Covers the subset used by the concrete runs below: comments,
    whitespace, qualified rules, at-rules with a block or a [;], and
    declaration lists (no strings, escapes or url tokens).  Token lists
    are returned as their text, which is what [serialize] gives back. *)

Module Tiny.

Definition is_css_ws (c : ascii) : bool :=
  let n := nat_of_ascii c in ((n =? 32) || (n =? 9) || (n =? 10) || (n =? 12) || (n =? 13))%nat.

Definition is_ident_char (c : ascii) : bool :=
  let n := nat_of_ascii c in
  (((97 <=? n) && (n <=? 122)) || ((65 <=? n) && (n <=? 90)) || ((48 <=? n) && (n <=? 57))
   || (n =? 45) || (n =? 95) || (128 <=? n))%nat.

(** Comments are dropped by the tokenizer. *)
Fixpoint strip_comments (inc : bool) (s : string) : string :=
  match s with
  | EmptyString => EmptyString
  | String a r =>
    if inc then
      match r with
      | String b r' => if ascii_eqb a "*"%char && ascii_eqb b "/"%char
                       then strip_comments false r' else strip_comments true r
      | EmptyString => EmptyString
      end
    else
      match r with
      | String b r' => if ascii_eqb a "/"%char && ascii_eqb b "*"%char
                       then strip_comments true r' else String a (strip_comments false r)
      | EmptyString => String a EmptyString
      end
  end.

Fixpoint skip_ws (s : string) : string :=
  match s with
  | String c r => if is_css_ws c then skip_ws r else s
  | EmptyString => s
  end.

Fixpoint rskip_ws_rev (s : string) : string :=
  match s with
  | String c r => if is_css_ws c then rskip_ws_rev r else s
  | EmptyString => s
  end.

Fixpoint split_at (stop : ascii -> bool) (s : string) : string * string :=
  match s with
  | EmptyString => ("", "")
  | String c r =>
    if stop c then ("", s)
    else let '(a, b) := split_at stop r in (String c a, b)
  end.

(** The contents of a [{}] block (the opening brace already consumed)
    and what follows its closing brace. *)
Fixpoint read_block (d : nat) (s : string) : string * string :=
  match s with
  | EmptyString => ("", "")
  | String c r =>
    if ascii_eqb c "{"%char then let '(a, b) := read_block (S d) r in (String c a, b)
    else if ascii_eqb c "}"%char then
      match d with
      | O => ("", r)
      | S d' => let '(a, b) := read_block d' r in (String c a, b)
      end
    else let '(a, b) := read_block d r in (String c a, b)
  end.

Definition is_open_brace (c : ascii) : bool := ascii_eqb c "{"%char.
Definition is_brace_or_semi (c : ascii) : bool :=
  ascii_eqb c "{"%char || ascii_eqb c ";"%char.

Fixpoint rules_of (fuel : nat) (s : string) : list node :=
  match fuel with
  | O => []
  | S f =>
    match skip_ws s with
    | EmptyString => []
    | String c r as s' =>
      if ascii_eqb c "@"%char then
        let kw := take_while is_ident_char r in
        let rest := String.substring (String.length kw) (String.length r - String.length kw) r in
        let '(pre, rest2) := split_at is_brace_or_semi rest in
        match rest2 with
        | String d r3 =>
          if ascii_eqb d "{"%char then
            let '(inner, r4) := read_block 0 r3 in
            AtRule kw pre (Some inner) :: rules_of f r4
          else AtRule kw pre None :: rules_of f r3
        | EmptyString => [AtRule kw pre None]
        end
      else
        let '(pre, rest2) := split_at is_open_brace s' in
        match rest2 with
        | String _ r3 =>
          let '(inner, r4) := read_block 0 r3 in
          QualifiedRule pre inner :: rules_of f r4
        | EmptyString => [ErrorNode "EOF reached before {} block for a qualified rule."]
        end
    end
  end.

Definition parse_stylesheet (css : string) : list node :=
  let s := strip_comments false css in rules_of (String.length s) s.

(** Split a declaration list at the [;] outside any block. *)
Fixpoint split_decls (d : nat) (s cur : string) : list string :=
  match s with
  | EmptyString => [cur]
  | String c r =>
    if ascii_eqb c "("%char || ascii_eqb c "["%char || ascii_eqb c "{"%char
    then split_decls (S d) r (cur ++ String c "")
    else if ascii_eqb c ")"%char || ascii_eqb c "]"%char || ascii_eqb c "}"%char
    then split_decls (pred d) r (cur ++ String c "")
    else if ascii_eqb c ";"%char && (d =? 0)%nat
    then cur :: split_decls d r ""
    else split_decls d r (cur ++ String c "")
  end.

(** [!important] at the end of a value. *)
Definition split_important (v : string) : string * bool :=
  let t := rskip_ws_rev (rev_str v) in
  if String.prefix "tnatropmi" (ascii_lower t) then
    match rskip_ws_rev (String.substring 9 (String.length t - 9) t) with
    | String c r => if ascii_eqb c "!"%char then (rev_str r, true) else (v, false)
    | EmptyString => (v, false)
    end
  else (v, false).

Definition decl_of (piece : string) : option decl_item :=
  match skip_ws piece with
  | EmptyString => None
  | String c r as p =>
    if ascii_eqb c "@"%char then Some DOther
    else
      let name := take_while is_ident_char p in
      if is_empty name then Some DError
      else
        match skip_ws (String.substring (String.length name)
                         (String.length p - String.length name) p) with
        | String d v =>
          if ascii_eqb d ":"%char
          then let '(value, imp) := split_important v in
               Some (DDecl (mkDecl name value imp))
          else Some DError
        | EmptyString => Some DError
        end
  end.

Definition parse_declaration_list (s : string) : list decl_item :=
  flat_map (fun p => match decl_of p with Some d => [d] | None => [] end)
           (split_decls 0 (strip_comments false s) "").

Definition tinycss2 : parser := mkParser parse_stylesheet parse_declaration_list.

End Tiny.

(* ================================================================== *)
(** * Predicates used in the statements *)

(** Two entries with the same key whose scopes agree unless the key is
    [nc]. *)
Definition same_outside (nc : string) (x y : string * scope) : Prop :=
  fst x = fst y /\ (fst x <> nc -> snd x = snd y).

(** Case-insensitive order on selectors ([key=lambda x: x[0].lower()]). *)
Definition lower_le (str_lower : string -> string) (x y : string) : Prop :=
  String.leb (str_lower x) (str_lower y) = true.

(** What safe-mode sorting does to one scope with distinct selectors. *)
Definition safe_sorted (str_lower : string -> string) (d d' : scope) : Prop :=
  filter is_dangerous (map fst d') = filter is_dangerous (map fst d)
  /\ Sorted (lower_le str_lower) (filter (fun k => negb (is_dangerous k)) (map fst d'))
  /\ Permutation d' d.

(** Every scope built by the processing functions has distinct selectors. *)
Definition scopes_nodup (c : compiler) : Prop :=
  NoDup (map fst (rules c))
  /\ Forall (fun cd => NoDup (map fst (snd cd))) (media_queries c).

(** The name under which a top-level node is stored as a keyframes
    at-rule, if it is one. *)
Definition keyframes_name (nd : node) : option string :=
  match nd with
  | AtRule kw p _ =>
    if String.eqb (ascii_lower kw) "keyframes"
    then Some (py_strip (serialize_tokens p)) else None
  | _ => None
  end.

(** [ar['keyword'] == 'keyframes' and ar['name'] == name] *)
Definition is_kf (name : string) (a : at_entry) : bool :=
  String.eqb (ar_keyword a) "keyframes"
  && match ar_name a with Some n => String.eqb n name | None => false end.

(** No run of three newlines, given [k] newlines just before [s]. *)
Fixpoint no_run3_from (k : nat) (s : string) : bool :=
  match s with
  | EmptyString => true
  | String c r =>
    if ascii_eqb c nlc then (k <? 2)%nat && no_run3_from (S k) r
    else no_run3_from 0 r
  end.

(** The name under which [generate_output] deduplicates an at-rule: the
    [name] of a keyframes entry, or else the name read from its content;
    [None] for any other at-rule and for a keyframes entry with no name. *)
Definition dedup_key (a : at_entry) : option string :=
  if String.eqb (ar_keyword a) "keyframes" then
    let name := match ar_name a with Some n => n | None => "" end in
    let name := if is_empty name
                then match match_keyframes_name (ar_content a) with
                     | Some m => m | None => name end
                else name in
    if is_empty name then None else Some name
  else None.

Definition has_key (n : string) (a : at_entry) : bool :=
  match dedup_key a with Some m => String.eqb m n | None => false end.

Definition unkeyed (a : at_entry) : bool :=
  match dedup_key a with Some _ => false | None => true end.

(** The names of the deduplicated entries of [l], in order, with
    repetitions. *)
Definition keys_of (l : list at_entry) : list string :=
  flat_map (fun a => match dedup_key a with Some n => [n] | None => [] end) l.

(** A name that starts with [{] or [;]. *)
Definition brace_start (k : string) : bool :=
  match k with
  | String c _ => ascii_eqb c "{"%char || ascii_eqb c ";"%char
  | EmptyString => false
  end.

(** What holds of every top-level [@keyframes] node tinycss2 returns.  A
    prelude ends at the first [{] or [;] outside a string, so the name
    read from it never starts with either; and a prelude whose name is
    blank holds only whitespace tokens, so it serialises to whitespace. *)
Definition kf_prelude_ok (nd : node) : Prop :=
  match nd with
  | AtRule kw p _ =>
    String.eqb (ascii_lower kw) "keyframes" = true ->
    (py_strip (serialize_tokens p) = "" -> lstrip p = "")
    /\ brace_start (py_strip (serialize_tokens p)) = false
  | _ => True
  end.

(** The names of the keyframes entries of an at-rule list. *)
Definition kf_names (l : list at_entry) : list string :=
  flat_map (fun a => if String.eqb (ar_keyword a) "keyframes"
                     then match ar_name a with Some m => [m] | None => [] end
                     else []) l.

(** A keyframes entry as [process_at_rule] stores it: it has a name, and
    the name [generate_output] deduplicates it under starts with [{] or
    [;] exactly when its own name is blank. *)
Definition kf_entry_ok (a : at_entry) : Prop :=
  String.eqb (ar_keyword a) "keyframes" = true ->
  exists m, ar_name a = Some m
            /\ forall k, dedup_key a = Some k -> (m = "" <-> brace_start k = true).

Definition at_ok (l : list at_entry) : Prop := NoDup (kf_names l) /\ Forall kf_entry_ok l.

(** [normalized == k] for a media condition *)
Definition cond_is (k : string) (cr : string * scope) : bool :=
  String.eqb (normalize_condition (fst cr)) k.

(** The inner merge loop of [generate_output] ([for selector, rule in
    rules.items(): ...]) run over several media scopes in turn, starting
    from [m]. *)
Definition merge_scopes_from (m : scope) (l : list (string * scope)) : scope :=
  fold_left (fun m cr => fold_left merge_rule_into (snd cr) m) l m.

(** A stored rule: its selector is non-empty and stripped, is the key it
    is stored under, and the rule has at least one property. *)
Definition rule_ok (kv : string * CSSRule) : Prop :=
  fst kv <> "" /\ py_strip (fst kv) = fst kv
  /\ selector (snd kv) = fst kv /\ properties (snd kv) <> [].

Definition scopes_ok (c : compiler) : Prop :=
  Forall rule_ok (rules c) /\ Forall (fun cd => Forall rule_ok (snd cd)) (media_queries c).

Definition is_decl_error (it : decl_item) : bool :=
  match it with DError => true | _ => false end.

(** The number of top-level at-rules whose lowered keyword satisfies [p]. *)
Definition count_at_rules (p : string -> bool) (ns : list node) : nat :=
  length (filter (fun n => match n with AtRule kw _ _ => p (ascii_lower kw) | _ => false end) ns).

(** The three top-level selections of [generate_output]. *)
Definition root_rules (c : compiler) : scope :=
  od_of (filter (fun kv => is_root (fst kv)) (rules c)).
Definition base_rules (c : compiler) : scope :=
  od_of (filter (fun kv => is_base (fst kv)) (rules c)).
Definition main_rules (c : compiler) : scope :=
  od_of (filter (fun kv => negb (od_mem (fst kv) (root_rules c))
                           && negb (od_mem (fst kv) (base_rules c))) (rules c)).

(** The rules in the order [base_section] writes them: [*], [html],
    [body], then the others of the base group. *)
Definition base_order (base : scope) : scope :=
  app (flat_map (fun sel => match od_get sel base with
                            | Some r => [(sel, r)] | None => [] end) base_selectors)
      (filter (fun kv => negb (existsb (String.eqb (fst kv)) base_selectors)) base).

(** The rules in the order [main_section] writes them: headings,
    elements, classes, ids, pseudo-classes. *)
Definition main_order (main : scope) : scope :=
  flat_map (fun g => od_of (filter (fun kv => main_group_eqb (main_group_of (fst kv)) g) main))
           [GHeading; GElement; GClass; GId; GPseudo].

Definition not_kf (a : at_entry) : bool := negb (String.eqb (ar_keyword a) "keyframes").

(** The entries [process_at_rule] appends for the top-level at-rules
    that are neither [@media] nor [@keyframes]. *)
Definition plain_at_entries (ns : list node) : list at_entry :=
  flat_map (fun n => match n with
                     | AtRule kw p b =>
                       let k := ascii_lower kw in
                       if String.eqb k "media" || String.eqb k "keyframes" then []
                       else [mkAt k None (serialize_node kw p b)]
                     | _ => []
                     end) ns.

Definition is_qualified (n : node) : bool :=
  match n with QualifiedRule _ _ => true | _ => false end.

(** The number of qualified rules [process_stylesheet] meets: the
    top-level ones, and those the parser returns for the content of a
    top-level [@media] block with a non-empty content. *)
Definition qualified_seen (P : parser) (ns : list node) : nat :=
  fold_right plus 0
    (map (fun n => match n with
                   | QualifiedRule _ _ => 1
                   | AtRule kw _ (Some b) =>
                     if String.eqb (ascii_lower kw) "media" && negb (is_empty b)
                     then length (filter is_qualified (parse_stylesheet P (serialize_tokens b)))
                     else 0
                   | _ => 0
                   end) ns).

(** A selector as [split_selectors] returns it. *)
Definition piece_ok (p : string) : Prop := p <> "" /\ py_strip p = p.

(** [',' in s] *)
Definition has_comma (s : string) : bool := existsb (ascii_eqb ","%char) (list_ascii_of_string s).

(** The state kept by the deduplication loop after the entries [done]. *)
Definition dedup_inv (seen : list (string * nat)) (out done : list at_entry) : Prop :=
  NoDup (keys_of out)
  /\ (forall n, od_get n seen = None <-> ~ In n (keys_of out))
  /\ (forall n i, od_get n seen = Some i ->
                  exists b, nth_error out i = Some b /\ dedup_key b = Some n)
  /\ (forall n, find (has_key n) out = find (has_key n) (rev done))
  /\ filter unkeyed out = filter unkeyed done.

(* ================================================================== *)
(** * Concrete inputs *)

Definition q : string := String dq EmptyString.

(** [a[title="x,y"], b] *)
Definition sel_quoted_comma : string := "a[title=" ++ q ++ "x,y" ++ q ++ "], b".

(** [a[title="\\"], b]: the attribute value is one (escaped) backslash. *)
Definition sel_escaped_backslash : string := "a[title=" ++ q ++ "\\" ++ q ++ "], b".

Definition media_block (cond : string) : string := "@media " ++ cond ++ "{a{color:red}}".

(** The media-query ordering scenario. *)
Definition css_media_scenario : string :=
  media_block "(min-width: 1200px)" ++ media_block "(max-width: 480px)" ++
  media_block "print" ++ media_block "(prefers-color-scheme: dark)" ++
  media_block "(max-width: 900px)".

(** A declaration whose value spans two lines, inside a [@media] block. *)
Definition css_multiline_value : string :=
  "@media print{a{transition:opacity 1s," ++ nl ++ "  color 1s}}".

(** A rule under [@media] with an empty prelude. *)
Definition css_empty_media : string := "a{color:red}@media {a{color:blue}}".

(** A [@keyframes] repeated inside a [@media] block. *)
Definition css_nested_keyframes : string :=
  "@keyframes x{from{color:red}}@media print{@keyframes x{from{color:blue}}}".

Definition red_a : scope := [("a", mkRule "a" [("color", "red")])].

(** ================================================================== *)
(** * Theorems *)

(** Helper examples for [split_selectors] (the cases quoted in the spec). *)
Example split_paren_comma : split_selectors "a, b(x,y), c" = ["a"; "b(x,y)"; "c"].
Proof. vm_compute. reflexivity. Qed.

Example split_quoted_comma :
  split_selectors sel_quoted_comma = ["a[title=" ++ q ++ "x,y" ++ q ++ "]"; "b"].
Proof. vm_compute. reflexivity. Qed.

(** C3 (defect): at [a[title="\\"], b] the quote closing the string
    ["\\"] follows a backslash, so [split_selectors] never leaves the
    string and does not split at the following comma. *)
Lemma c3_escaped_backslash_not_split :
  split_selectors sel_escaped_backslash = [sel_escaped_backslash].
Proof. vm_compute. reflexivity. Qed.

(** C2 (defect): with the five conditions of the scenario, the
    [(max-width: 900px)] query is classified as tablet and is emitted in
    no section: the mobile section holds only the 480px query. *)
Lemma c2_scenario_drops_900px (str_lower : string -> string) :
  map (fun sec => (fst sec, map fst (snd sec)))
      (media_layout (merge_queries (media_queries
         (process_stylesheet Tiny.tinycss2
            (parse_stylesheet Tiny.tinycss2 css_media_scenario) init))))
  = [("--- DESKTOP ---", ["(min-width:1200px)"]);
     ("--- MOBILE ---", ["(max-width:480px)"]);
     ("--- AUTRES ---", []);
     ("--- PRÉFÉRENCES UTILISATEUR ---", ["(prefers-color-scheme:dark)"]);
     ("--- PRINT ---", ["print"])]
  /\ contains "900px" (compile Tiny.tinycss2 str_lower false true css_media_scenario) = false.
Proof. vm_compute. split; reflexivity. Qed.

(** C6 (defect): compiling the output of [css_multiline_value] again
    changes it (the continuation line of the value is indented by four
    more spaces on each pass). *)
Lemma c6_not_idempotent (str_lower : string -> string) :
  compile Tiny.tinycss2 str_lower false true (compile Tiny.tinycss2 str_lower false true css_multiline_value)
  <> compile Tiny.tinycss2 str_lower false true css_multiline_value.
Proof. vm_compute. discriminate. Qed.

(** C1 (defect): a rule under [@media {...}] (empty condition) is
    stored in the top-level scope, where it overrides the top-level
    [color: red]; no media scope is created. *)
Lemma c1_empty_media_condition_merged_into_top_level :
  let c := process_stylesheet Tiny.tinycss2
             (parse_stylesheet Tiny.tinycss2 css_empty_media) init in
  rules c = [("a", mkRule "a" [("color", "blue")])] /\ media_queries c = [].
Proof. vm_compute. split; reflexivity. Qed.

(** C4 (counterexample): a [@keyframes x] nested in a [@media] block is
    discarded, so the emitted [x] keeps the content of the top-level
    (first) occurrence rather than that of the last occurrence.  The
    compilation is not alphabetical, so no selector is lower-cased;
    [ascii_lower] stands for [str.lower], which it matches on this ASCII
    input. *)
Lemma c4_nested_keyframes_not_last :
  dedup_at_rules (at_rules (process_stylesheet Tiny.tinycss2
                    (parse_stylesheet Tiny.tinycss2 css_nested_keyframes) init))
  = [mkAt "keyframes" (Some "x") "@keyframes x{from{color:red}}"]
  /\ contains "blue" (compile Tiny.tinycss2 ascii_lower false true css_nested_keyframes) = false.
Proof. vm_compute. split; reflexivity. Qed.

(** C5 (counterexample): the output for the empty stylesheet ends with
    two newline characters. *)
Lemma c5_output_ends_with_blank_line :
  ~ (contains (nl ++ nl ++ nl) (generate_output init) = false
     /\ endswith (generate_output init) nl = true
     /\ endswith (generate_output init) (nl ++ nl) = false).
Proof. vm_compute. intros [_ [_ H]]. discriminate H. Qed.

(** C8 (counterexample): in the "other" group a [max-width] condition
    (key -1200) is emitted before a condition without width (key 0). *)
Lemma c8_nowidth_not_first :
  map fst (sort_group (group_of COther (merge_queries
     [("screen", red_a); ("(max-width: 1200px)", red_a)])))
  = ["(max-width:1200px)"; "screen"]
  /\ search_width "screen" = None
  /\ search_width "(max-width:1200px)" = Some (true, 1200%Z).
Proof. vm_compute. repeat split. Qed.

(** C9 (counterexample): the condition [print and (max-width: 900px)]
    has an extracted max-width of 900, yet it is classified as print
    and its rule is emitted. *)
Lemma c9_print_tablet_width_emitted :
  search_max_width (normalize_condition "print and (max-width: 900px)") = Some 900%Z
  /\ classify (normalize_condition "print and (max-width: 900px)") = CPrint
  /\ contains "color: red"
       (generate_output (mkC [] [] [("print and (max-width: 900px)", red_a)] stats0))
     = true.
Proof. vm_compute. repeat split. Qed.

(* ------------------------------------------------------------------ *)
(** ** Final text: blank-line collapsing and trailing newline *)

Lemma string_app_nil (s : string) : s ++ "" = s.
Proof. induction s; cbn -[nlc]; congruence. Qed.

Lemma string_app_assoc (x y z : string) : (x ++ y) ++ z = x ++ (y ++ z).
Proof. induction x; cbn -[nlc]; congruence. Qed.

Lemma rev_str_app (x y : string) : rev_str (x ++ y) = rev_str y ++ rev_str x.
Proof.
  induction x as [|a x IH]; cbn -[nlc].
  - now rewrite string_app_nil.
  - now rewrite IH, string_app_assoc.
Qed.

Lemma rev_str_empty (x : string) : rev_str x = "" -> x = "".
Proof.
  destruct x as [|a x]; cbn -[nlc]; [easy|].
  destruct (rev_str x); discriminate.
Qed.

Lemma prefix_nl_app (x y : string) :
  x <> "" -> String.prefix nl (x ++ y) = String.prefix nl x.
Proof.
  destruct x as [|a x]; [congruence|]. intros _.
  unfold nl. cbn -[nlc].
  destruct (ascii_dec nlc a); [destruct x, y; reflexivity|reflexivity].
Qed.

Lemma ascii_eqb_nl (c : ascii) :
  String.prefix nl (String c "") = ascii_eqb c nlc.
Proof.
  unfold nl, ascii_eqb. cbn -[nlc].
  destruct (ascii_dec nlc c) as [<-|Hn].
  - now rewrite Ascii.eqb_refl.
  - symmetry. apply Ascii.eqb_neq. congruence.
Qed.

Lemma endswith_nl_cons (c : ascii) (r : string) :
  endswith (String c r) nl = if is_empty r then ascii_eqb c nlc else endswith r nl.
Proof.
  unfold endswith. change (rev_str nl) with nl. cbn -[nlc].
  destruct r as [|a r'] eqn:Er; cbn -[nlc].
  - apply ascii_eqb_nl.
  - rewrite prefix_nl_app; [reflexivity|].
    intro H. apply (rev_str_empty (String a r')) in H. discriminate.
Qed.

Lemma contains_cons (p : string) (c : ascii) (r : string) :
  contains p (String c r) = String.prefix p (String c r) || contains p r.
Proof.
  change (contains p (String c r))
    with (if String.prefix p (String c r) then true else contains p r).
  now destruct (String.prefix p (String c r)).
Qed.

Lemma prefix_cons (p : string) (b c : ascii) (r : string) :
  String.prefix (String b p) (String c r) = Ascii.eqb b c && String.prefix p r.
Proof.
  cbn [String.prefix]. destruct (ascii_dec b c) as [<-|Hn].
  - now rewrite Ascii.eqb_refl.
  - assert (E : Ascii.eqb b c = false) by (apply Ascii.eqb_neq; exact Hn).
    now rewrite E.
Qed.

Lemma no_run3_no_triple (s : string) (k : nat) :
  no_run3_from k s = true ->
  contains (nl ++ nl ++ nl) s = false
  /\ ((1 <= k)%nat -> String.prefix (nl ++ nl) s = false)
  /\ ((2 <= k)%nat -> String.prefix nl s = false).
Proof.
  change (nl ++ nl ++ nl) with (String nlc (nl ++ nl)).
  change (nl ++ nl) with (String nlc nl).
  revert k. induction s as [|c r IH]; intros k H.
  - repeat split; reflexivity.
  - cbn [no_run3_from] in H. destruct (ascii_eqb c nlc) eqn:Ec.
    + apply Ascii.eqb_eq in Ec. subst c.
      apply andb_true_iff in H as [Hk H]. apply Nat.ltb_lt in Hk.
      destruct (IH (S k) H) as [H1 [H2 H3]].
      assert (P2 : String.prefix (String nlc nl) r = false) by (apply H2; lia).
      repeat split.
      * rewrite contains_cons, prefix_cons, Ascii.eqb_refl, H1. simpl.
        rewrite P2. reflexivity.
      * intros Hk1. unfold nl at 1. rewrite prefix_cons, Ascii.eqb_refl.
        apply H3. lia.
      * intros; lia.
    + destruct (IH 0%nat H) as [H1 _].
      assert (Hc : Ascii.eqb nlc c = false)
        by (rewrite Ascii.eqb_sym; exact Ec).
      repeat split.
      * rewrite contains_cons, prefix_cons, Hc, H1. reflexivity.
      * intros _. rewrite prefix_cons, Hc. reflexivity.
      * intros _. unfold nl. rewrite prefix_cons, Hc. reflexivity.
Qed.

Lemma nl_flush_cases (n : nat) :
  nl_flush n = "" \/ nl_flush n = nl \/ nl_flush n = nl ++ nl.
Proof.
  destruct n as [|[|[|n]]]; [left|right;left|right;right|right;right]; reflexivity.
Qed.

Lemma collapse_nl_cons (n : nat) (c : ascii) (r : string) :
  collapse_nl n (String c r) =
  if ascii_eqb c nlc then collapse_nl (S n) r
  else nl_flush n ++ String c (collapse_nl 0 r).
Proof. reflexivity. Qed.

Lemma collapse_nl_nil (n : nat) : collapse_nl n "" = nl_flush n.
Proof. reflexivity. Qed.

Lemma no_run3_flush_then (n : nat) (c : ascii) (r : string) :
  ascii_eqb c nlc = false ->
  no_run3_from 0 (nl_flush n ++ String c r) = no_run3_from 0 r.
Proof.
  intro Hc.
  destruct (nl_flush_cases n) as [E|[E|E]]; rewrite E; cbn -[nlc]; now rewrite Hc.
Qed.

Lemma no_run3_collapse (s : string) (n : nat) :
  no_run3_from 0 (collapse_nl n s) = true.
Proof.
  revert n. induction s as [|c r IH]; intro n.
  - rewrite collapse_nl_nil.
    destruct (nl_flush_cases n) as [E|[E|E]]; rewrite E; reflexivity.
  - rewrite collapse_nl_cons. destruct (ascii_eqb c nlc) eqn:Ec.
    + apply IH.
    + rewrite no_run3_flush_then by exact Ec. apply IH.
Qed.

Lemma no_run3_append_nl (x : string) (k : nat) :
  no_run3_from k x = true -> endswith x nl = false ->
  (x = "" -> (k < 2)%nat) -> no_run3_from k (x ++ nl) = true.
Proof.
  revert k. induction x as [|c r IH]; intros k H He Hk.
  - cbn -[nlc]. rewrite Ascii.eqb_refl. specialize (Hk eq_refl).
    assert (Hk' : (k <=? 1)%nat = true) by (apply Nat.leb_le; lia).
    now rewrite Hk'.
  - rewrite endswith_nl_cons in He. cbn -[nlc] in H |- *.
    destruct (ascii_eqb c nlc) eqn:Ec.
    + apply andb_true_iff in H as [H1 H2]. rewrite H1. cbn -[nlc].
      destruct r as [|a r']; [cbn -[nlc] in He; discriminate|].
      apply IH; [exact H2|exact He|discriminate].
    + destruct (is_empty r) eqn:Er.
      * destruct r; [|discriminate]. cbn -[nlc]. rewrite Ascii.eqb_refl. reflexivity.
      * apply IH; [exact H|exact He|intro; subst; discriminate].
Qed.

Lemma endswith_app_nl (x : string) : endswith (x ++ nl) nl = true.
Proof.
  unfold endswith. rewrite rev_str_app. change (rev_str nl) with nl.
  change (String.prefix (String nlc "") (String nlc (rev_str x)) = true).
  rewrite prefix_cons, Ascii.eqb_refl. now destruct (rev_str x).
Qed.

Lemma finalize_ok (s : string) :
  contains (nl ++ nl ++ nl) (finalize s) = false /\ endswith (finalize s) nl = true.
Proof.
  unfold finalize.
  destruct (endswith (collapse_nl 0 s) nl) eqn:E.
  - split; [|exact E].
    exact (proj1 (no_run3_no_triple _ 0 (no_run3_collapse s 0))).
  - split; [|apply endswith_app_nl].
    apply (proj1 (no_run3_no_triple _ 0%nat
             (no_run3_append_nl _ 0 (no_run3_collapse s 0) E ltac:(lia)))).
Qed.

(** C5 (amended): for every compiler state, the text returned by
    [generate_output] contains no run of three newlines and its last
    character is a newline. *)
Theorem c5_no_triple_newline_and_final_newline (c : compiler) :
  contains (nl ++ nl ++ nl) (generate_output c) = false
  /\ endswith (generate_output c) nl = true.
Proof. apply finalize_ok. Qed.

(* ------------------------------------------------------------------ *)
(** ** Facts about the stable sort *)

Section SortByFacts.
Context {A K : Type} (key : A -> K) (leb : K -> K -> bool).

Lemma insert_by_perm (x : A) (l : list A) :
  Permutation (insert_by key leb x l) (x :: l).
Proof.
  induction l as [|y l IH]; simpl; [reflexivity|].
  destruct (leb (key x) (key y)); [reflexivity|].
  rewrite IH. apply perm_swap.
Qed.

Lemma sort_by_perm (l : list A) : Permutation (sort_by key leb l) l.
Proof.
  induction l as [|x l IH]; simpl; [reflexivity|].
  rewrite insert_by_perm, IH. reflexivity.
Qed.

Hypothesis leb_total : forall a b, leb a b = true \/ leb b a = true.

Let R (a b : A) : Prop := leb (key a) (key b) = true.

Lemma insert_by_hdrel (x y : A) (l : list A) :
  R y x -> HdRel R y l -> HdRel R y (insert_by key leb x l).
Proof.
  intros Hyx Hl. destruct l as [|z l]; simpl.
  - constructor. exact Hyx.
  - destruct (leb (key x) (key z)); constructor; [exact Hyx|].
    inversion Hl; assumption.
Qed.

Lemma insert_by_sorted (x : A) (l : list A) :
  Sorted R l -> Sorted R (insert_by key leb x l).
Proof.
  induction l as [|y l IH]; intros Hs; simpl.
  - repeat constructor.
  - destruct (leb (key x) (key y)) eqn:Hxy.
    + constructor; [exact Hs|]. constructor. exact Hxy.
    + inversion Hs as [|? ? Hs' Hhd]; subst.
      constructor; [apply IH, Hs'|].
      apply insert_by_hdrel; [|exact Hhd].
      unfold R. destruct (leb_total (key x) (key y)) as [H|H];
        [congruence|exact H].
Qed.

Lemma sort_by_sorted (l : list A) : Sorted R (sort_by key leb l).
Proof.
  induction l as [|x l IH]; simpl; [constructor|].
  apply insert_by_sorted, IH.
Qed.

(** Stability: elements with a given key keep their relative order. *)
Variable keq : K -> K -> bool.
Hypothesis keq_leb :
  forall a b k, keq a k = true -> keq b k = true -> leb a b = true.

Lemma filter_insert_by (k : K) (x : A) (l : list A) :
  filter (fun a => keq (key a) k) (insert_by key leb x l)
  = filter (fun a => keq (key a) k) (x :: l).
Proof.
  induction l as [|y l IH]; simpl; [reflexivity|].
  destruct (leb (key x) (key y)) eqn:Hxy; [reflexivity|].
  simpl. rewrite IH. simpl.
  destruct (keq (key x) k) eqn:Hx, (keq (key y) k) eqn:Hy; try reflexivity.
  rewrite (keq_leb _ _ _ Hx Hy) in Hxy. discriminate.
Qed.

Lemma filter_sort_by (k : K) (l : list A) :
  filter (fun a => keq (key a) k) (sort_by key leb l)
  = filter (fun a => keq (key a) k) l.
Proof.
  induction l as [|x l IH]; simpl; [reflexivity|].
  rewrite filter_insert_by. simpl. rewrite IH. reflexivity.
Qed.

End SortByFacts.

(** C8 (amended): each of the desktop, mobile and other groups is emitted
    as a stable sort of its conditions by [sort_key]: minus the width for
    a max-width condition, the width for a min-width condition, and zero
    when no width is found.  So the max-width conditions come first (widest
    first), then the conditions without a width, then the min-width
    conditions (narrowest first); conditions with equal keys keep their
    merge order, and no condition is added or lost. *)
Theorem c8_groups_stably_sorted_by_width_key (g : category)
    (merged : list (string * scope)) :
  let grp := group_of g merged in
  Sorted (fun a b => (sort_key (fst a) <=? sort_key (fst b))%Z = true)
         (sort_group grp)
  /\ Permutation (sort_group grp) grp
  /\ (forall k : Z,
        filter (fun a => Z.eqb (sort_key (fst a)) k) (sort_group grp)
        = filter (fun a => Z.eqb (sort_key (fst a)) k) grp).
Proof.
  intros grp. unfold sort_group. split; [|split].
  - apply (sort_by_sorted (fun cr : string * scope => sort_key (fst cr)) Z.leb).
    intros a b. destruct (Z.leb_spec a b); [left; reflexivity|].
    right. apply Z.leb_le. lia.
  - apply sort_by_perm.
  - intros k.
    apply (filter_sort_by (fun cr : string * scope => sort_key (fst cr)) Z.leb Z.eqb).
    intros a b k' Ha Hb. apply Z.eqb_eq in Ha, Hb. subst. apply Z.leb_refl.
Qed.

(* ------------------------------------------------------------------ *)
(** ** Tablet-range conditions do not reach the output *)

Lemma prefix_app_l (a b s : string) :
  String.prefix (a ++ b) s = true -> String.prefix a s = true.
Proof.
  revert s. induction a as [|c a IH]; intros s H.
  - destruct s; reflexivity.
  - destruct s as [|d s]; [discriminate|].
    change (String.prefix (String c (a ++ b)) (String d s) = true) in H.
    rewrite prefix_cons in H |- *. apply andb_prop in H as [H1 H2].
    rewrite H1. apply (IH s H2).
Qed.

Lemma search_max_width_contains (s : string) (w : Z) :
  search_max_width s = Some w -> contains "max-width" s = true.
Proof.
  induction s as [|c r IH]; intros H.
  - discriminate H.
  - cbn [search_max_width] in H. cbn [contains].
    destruct (String.prefix "max-width:" (String c r)) eqn:Hp.
    + rewrite (prefix_app_l "max-width" ":" _ Hp). reflexivity.
    + destruct (String.prefix "max-width" (String c r)); [reflexivity|].
      apply (IH H).
Qed.

Lemma classify_tablet (n : string) (w : Z) :
  contains "print" n = false -> contains "prefers-" n = false ->
  search_max_width n = Some w -> (768 < w <= 1024)%Z ->
  classify n = CTablet.
Proof.
  intros Hp Hf Hw Hr. unfold classify.
  rewrite Hp, Hf, (search_max_width_contains n w Hw), Hw.
  destruct (Z.leb_spec w 768); [lia|].
  destruct (Z.leb_spec w 1024); [reflexivity|lia].
Qed.

Section SameOutside.
Variable nc : string.

Lemma od_set_same_outside (k : string) (v1 v2 : scope) m1 m2 :
  Forall2 (same_outside nc) m1 m2 -> (k <> nc -> v1 = v2) ->
  Forall2 (same_outside nc) (od_set k v1 m1) (od_set k v2 m2).
Proof.
  intros H Hv. induction H as [|[k1 x1] [k2 x2] m1 m2 [Hk Hx] Ht IH];
    simpl in *; subst.
  - constructor; [|constructor]. split; [reflexivity|exact Hv].
  - destruct (String.eqb_spec k k2); subst.
    + constructor; [|exact Ht]. split; [reflexivity|exact Hv].
    + constructor; [split; [reflexivity|exact Hx]|exact IH].
Qed.

Lemma od_get_same_outside (k : string) m1 m2 :
  Forall2 (same_outside nc) m1 m2 -> k <> nc -> od_get k m1 = od_get k m2.
Proof.
  intros H Hk. induction H as [|[k1 x1] [k2 x2] m1 m2 [Hk' Hx] _ IH];
    simpl in *; subst; [reflexivity|].
  destruct (String.eqb_spec k k2); subst; [|exact IH].
  rewrite (Hx Hk). reflexivity.
Qed.

Lemma od_mem_same_outside (k : string) m1 m2 :
  Forall2 (same_outside nc) m1 m2 -> od_mem k m1 = od_mem k m2.
Proof.
  unfold od_mem. intros H.
  induction H as [|[k1 x1] [k2 x2] m1 m2 [Hk' Hx] _ IH];
    simpl in *; subst; [reflexivity|].
  destruct (String.eqb k k2); [reflexivity|exact IH].
Qed.

Lemma merge_step_same_outside m1 m2 (cr1 cr2 : string * scope) :
  Forall2 (same_outside nc) m1 m2 -> fst cr1 = fst cr2 ->
  (normalize_condition (fst cr1) <> nc -> snd cr1 = snd cr2) ->
  Forall2 (same_outside nc) (merge_step m1 cr1) (merge_step m2 cr2).
Proof.
  intros H Hk Hv. unfold merge_step. rewrite <- Hk.
  set (n := normalize_condition (fst cr1)).
  rewrite (od_mem_same_outside n m1 m2 H).
  assert (H' : Forall2 (same_outside nc)
                 (if od_mem n m2 then m1 else od_set n [] m1)
                 (if od_mem n m2 then m2 else od_set n [] m2)).
  { destruct (od_mem n m2); [exact H|].
    apply od_set_same_outside; [exact H|reflexivity]. }
  apply od_set_same_outside; [exact H'|].
  intros Hn. rewrite (od_get_same_outside n _ _ H' Hn), (Hv Hn). reflexivity.
Qed.

Lemma merge_fold_same_outside (l1 l2 : list (string * scope)) m1 m2 :
  Forall2 (fun a b => fst a = fst b /\
                      (normalize_condition (fst a) <> nc -> snd a = snd b)) l1 l2 ->
  Forall2 (same_outside nc) m1 m2 ->
  Forall2 (same_outside nc) (fold_left merge_step l1 m1) (fold_left merge_step l2 m2).
Proof.
  intros Hl. revert m1 m2.
  induction Hl as [|a b l1 l2 [Hk Hv] _ IH]; intros m1 m2 Hm; simpl; [exact Hm|].
  apply IH, merge_step_same_outside; assumption.
Qed.

Lemma filter_same_outside (P : string -> bool) m1 m2 :
  P nc = false -> Forall2 (same_outside nc) m1 m2 ->
  filter (fun cr => P (fst cr)) m1 = filter (fun cr => P (fst cr)) m2.
Proof.
  intros HP H. induction H as [|[k1 x1] [k2 x2] m1 m2 [Hk Hx] _ IH];
    simpl in *; subst; [reflexivity|].
  destruct (P k2) eqn:Hp; [|exact IH].
  assert (k2 <> nc) by (intros E; subst; congruence).
  rewrite (Hx H), IH. reflexivity.
Qed.

End SameOutside.

Lemma same_outside_refl (nc : string) (l : list (string * scope)) :
  Forall2 (fun a b => fst a = fst b /\
                      (normalize_condition (fst a) <> nc -> snd a = snd b)) l l.
Proof.
  induction l; constructor; [split; reflexivity|exact IHl].
Qed.

(** C9 (amended): take a media condition whose normalised text contains
    neither "print" nor "prefers-", and whose extracted max-width [w]
    satisfies 768 < w <= 1024.  It is classified as tablet, and the rules
    stored under it have no effect on the output: replacing them by any
    other rules leaves the text returned by [generate_output] unchanged. *)
Theorem c9_tablet_rules_not_emitted (r : scope) (a : list at_entry)
    (pre post : list (string * scope)) (cond : string) (R1 R2 : scope)
    (s : stats) (w : Z)
    (Hprint : contains "print" (normalize_condition cond) = false)
    (Hpref : contains "prefers-" (normalize_condition cond) = false)
    (Hw : search_max_width (normalize_condition cond) = Some w)
    (Hrange : (768 < w <= 1024)%Z) :
  classify (normalize_condition cond) = CTablet
  /\ generate_output (mkC r a (app pre ((cond, R1) :: post)) s)
     = generate_output (mkC r a (app pre ((cond, R2) :: post)) s).
Proof.
  set (nc := normalize_condition cond).
  assert (Hc : classify nc = CTablet) by (apply (classify_tablet nc w); assumption).
  split; [exact Hc|].
  assert (Hm : Forall2 (same_outside nc)
                 (merge_queries (app pre ((cond, R1) :: post)))
                 (merge_queries (app pre ((cond, R2) :: post)))).
  { unfold merge_queries. apply merge_fold_same_outside; [|constructor].
    apply Forall2_app; [apply same_outside_refl|].
    constructor; [|apply same_outside_refl].
    split; [reflexivity|]. simpl. intros Hn. exfalso. apply Hn. reflexivity. }
  assert (Hg : forall g, g <> CTablet ->
            group_of g (merge_queries (app pre ((cond, R1) :: post)))
            = group_of g (merge_queries (app pre ((cond, R2) :: post)))).
  { intros g Hg. unfold group_of.
    rewrite (filter_same_outside nc (fun k => category_eqb (classify k) g) _ _
               ltac:(cbv beta; rewrite Hc; destruct g; try reflexivity; congruence) Hm).
    reflexivity. }
  unfold generate_output; cbn [rules at_rules media_queries].
  unfold media_section.
  destruct pre; cbn [app] in Hg |- *;
    unfold media_layout;
    rewrite (Hg CDesktop), (Hg CMobile), (Hg COther), (Hg CPref), (Hg CPrint)
      by discriminate; reflexivity.
Qed.

(** C9: the theorem applied to the condition [(max-width: 900px)]. *)
Lemma c9_tablet_rules_not_emitted_witness :
  contains "print" (normalize_condition "(max-width: 900px)") = false
  /\ contains "prefers-" (normalize_condition "(max-width: 900px)") = false
  /\ search_max_width (normalize_condition "(max-width: 900px)") = Some 900%Z
  /\ (768 < 900 <= 1024)%Z
  /\ classify (normalize_condition "(max-width: 900px)") = CTablet
  /\ generate_output (mkC [] [] (app [] (("(max-width: 900px)", red_a) :: [])) stats0)
     = generate_output (mkC [] [] (app [] (("(max-width: 900px)", []) :: [])) stats0).
Proof.
  assert (H1 : contains "print" (normalize_condition "(max-width: 900px)") = false)
    by (vm_compute; reflexivity).
  assert (H2 : contains "prefers-" (normalize_condition "(max-width: 900px)") = false)
    by (vm_compute; reflexivity).
  assert (H3 : search_max_width (normalize_condition "(max-width: 900px)") = Some 900%Z)
    by (vm_compute; reflexivity).
  assert (H4 : (768 < 900 <= 1024)%Z) by lia.
  split; [exact H1|]. split; [exact H2|]. split; [exact H3|]. split; [exact H4|].
  exact (c9_tablet_rules_not_emitted [] [] [] [] "(max-width: 900px)" red_a []
           stats0 900%Z H1 H2 H3 H4).
Defined.

(* ------------------------------------------------------------------ *)
(** ** At-rules nested in a [@media] block *)

Lemma process_qualified_rule_at_rules (P : parser) (p b : string)
    (mc : option string) (c : compiler) :
  at_rules (process_qualified_rule P p b mc c) = at_rules c.
Proof.
  unfold process_qualified_rule.
  destruct (is_empty (py_strip (serialize_tokens p))); [reflexivity|].
  destruct (parse_declaration_block P b _) as [props s2].
  destruct props; [reflexivity|].
  destruct (truthy mc).
  - destruct (add_to_scope _ _ _ _). reflexivity.
  - destruct (add_to_scope _ _ _ _). reflexivity.
Qed.

Lemma media_body_at_rules (P : parser) (cond : string) (ns : list node)
    (c : compiler) :
  at_rules (media_body P cond ns c) = at_rules c.
Proof.
  unfold media_body. revert c.
  induction ns as [|n ns IH]; intros c; simpl; [reflexivity|].
  rewrite IH. destruct n; [apply process_qualified_rule_at_rules|reflexivity|reflexivity].
Qed.

(** C10: an at-rule among the children of a non-empty [@media] block is
    discarded.  Processing the block gives exactly the same compiler
    state (rules, at-rules, media queries and statistics) as processing
    it with that child removed, and the at-rule list is left as it was. *)
Theorem c10_nested_at_rule_discarded (P : parser) (kw prelude b : string)
    (c : compiler) (xs ys : list node) (kw' p' : string) (b' : option string)
    (Hkw : ascii_lower kw = "media")
    (Hb : is_empty b = false)
    (Hparse : parse_stylesheet P (serialize_tokens b)
              = app xs (AtRule kw' p' b' :: ys)) :
  process_at_rule P kw prelude (Some b) c
  = media_body P (py_strip (serialize_tokens prelude)) (app xs ys)
               (with_stats c (bump_media_queries (cstats c)))
  /\ at_rules (process_at_rule P kw prelude (Some b) c) = at_rules c.
Proof.
  assert (E : process_at_rule P kw prelude (Some b) c
              = media_body P (py_strip (serialize_tokens prelude)) (app xs ys)
                           (with_stats c (bump_media_queries (cstats c)))).
  { unfold process_at_rule. rewrite Hkw. cbn [String.eqb Ascii.eqb Bool.eqb].
    rewrite Hb, Hparse. unfold media_body.
    rewrite !fold_left_app. reflexivity. }
  split; [exact E|].
  rewrite E, media_body_at_rules. reflexivity.
Qed.

(** C10: the theorem applied to a [@keyframes] nested in [@media print]. *)
Lemma c10_nested_at_rule_discarded_witness :
  let b := "@keyframes x{from{color:blue}}a{color:red}" in
  ascii_lower "media" = "media"
  /\ is_empty b = false
  /\ parse_stylesheet Tiny.tinycss2 (serialize_tokens b)
     = app [] (AtRule "keyframes" " x" (Some "from{color:blue}")
               :: [QualifiedRule "a" "color:red"])
  /\ process_at_rule Tiny.tinycss2 "media" " print" (Some b) init
     = media_body Tiny.tinycss2 (py_strip (serialize_tokens " print"))
                  (app [] [QualifiedRule "a" "color:red"])
                  (with_stats init (bump_media_queries (cstats init)))
  /\ at_rules (process_at_rule Tiny.tinycss2 "media" " print" (Some b) init)
     = at_rules init.
Proof.
  intros b.
  assert (H1 : ascii_lower "media" = "media") by reflexivity.
  assert (H2 : is_empty b = false) by reflexivity.
  assert (H3 : parse_stylesheet Tiny.tinycss2 (serialize_tokens b)
               = app [] (AtRule "keyframes" " x" (Some "from{color:blue}")
                         :: [QualifiedRule "a" "color:red"]))
    by (vm_compute; reflexivity).
  split; [exact H1|]. split; [exact H2|]. split; [exact H3|].
  exact (c10_nested_at_rule_discarded Tiny.tinycss2 "media" " print" b init []
           [QualifiedRule "a" "color:red"] "keyframes" " x"
           (Some "from{color:blue}") H1 H2 H3).
Defined.

(* ------------------------------------------------------------------ *)
(** ** Ordered dictionaries with distinct keys *)

Section OdFacts.
Context {V : Type}.

Lemma od_set_keys_in (k x : string) (v : V) (d : list (string * V)) :
  In x (map fst (od_set k v d)) -> x = k \/ In x (map fst d).
Proof.
  induction d as [|[k' v'] d IH]; simpl.
  - intros [H|[]]. left. symmetry. exact H.
  - destruct (String.eqb k k'); simpl; intros [H|H]; auto.
    destruct (IH H); auto.
Qed.

Lemma od_set_nodup (k : string) (v : V) (d : list (string * V)) :
  NoDup (map fst d) -> NoDup (map fst (od_set k v d)).
Proof.
  induction d as [|[k' v'] d IH]; simpl; intros Hd.
  - repeat constructor. intros [].
  - inversion Hd as [|? ? Hn Hd']; subst.
    destruct (String.eqb_spec k k'); simpl; constructor; auto.
    intros Hin. destruct (od_set_keys_in _ _ _ _ Hin); [congruence|auto].
Qed.

Lemma od_set_new (k : string) (v : V) (d : list (string * V)) :
  ~ In k (map fst d) -> od_set k v d = app d [(k, v)].
Proof.
  induction d as [|[k' v'] d IH]; simpl; intros Hn; [reflexivity|].
  destruct (String.eqb_spec k k'); [subst; tauto|].
  rewrite IH; [reflexivity|tauto].
Qed.

Lemma od_update_fresh (acc l : list (string * V)) :
  NoDup (map fst (app acc l)) -> od_update acc l = app acc l.
Proof.
  revert acc. induction l as [|[k v] l IH]; intros acc H.
  - rewrite app_nil_r. reflexivity.
  - unfold od_update. simpl. rewrite od_set_new.
    + fold (od_update (app acc [(k, v)]) l). rewrite IH.
      * rewrite <- app_assoc. reflexivity.
      * rewrite <- app_assoc. exact H.
    + rewrite map_app in H. simpl in H.
      apply NoDup_remove_2 in H. rewrite in_app_iff in H. tauto.
Qed.

Lemma od_of_nodup (l : list (string * V)) :
  NoDup (map fst l) -> od_of l = l.
Proof. intros H. apply (od_update_fresh [] l H). Qed.

Lemma od_get_forall (Q : V -> Prop) (k : string) (d : list (string * V)) (v : V) :
  Forall (fun kv => Q (snd kv)) d -> od_get k d = Some v -> Q v.
Proof.
  induction 1 as [|[k' v'] d Hx _ IH]; simpl; [discriminate|].
  destruct (String.eqb k k'); [intros E; injection E as <-; exact Hx|exact IH].
Qed.

Lemma od_set_forall (Q : V -> Prop) (k : string) (v : V) (d : list (string * V)) :
  Forall (fun kv => Q (snd kv)) d -> Q v ->
  Forall (fun kv => Q (snd kv)) (od_set k v d).
Proof.
  intros H Hv. induction H as [|[k' v'] d Hx Ht IH]; simpl.
  - constructor; [exact Hv|constructor].
  - destruct (String.eqb k k'); constructor; auto.
Qed.

End OdFacts.

(* ------------------------------------------------------------------ *)
(** ** [sort_rules] in safe mode *)

Section ListFacts.
Context {A : Type}.

Lemma filter_idem (f : A -> bool) (l : list A) : filter f (filter f l) = filter f l.
Proof.
  induction l as [|x l IH]; simpl; [reflexivity|].
  destruct (f x) eqn:E; simpl; [rewrite E, IH|]; auto.
Qed.

Lemma filter_none (f : A -> bool) (l : list A) :
  (forall x, In x l -> f x = false) -> filter f l = [].
Proof.
  induction l as [|x l IH]; simpl; intros H; [reflexivity|].
  rewrite (H x (or_introl eq_refl)). apply IH. auto.
Qed.

Lemma filter_all (f : A -> bool) (l : list A) :
  (forall x, In x l -> f x = true) -> filter f l = l.
Proof.
  induction l as [|x l IH]; simpl; intros H; [reflexivity|].
  rewrite (H x (or_introl eq_refl)), IH; auto.
Qed.

Lemma filter_partition_perm (f : A -> bool) (l : list A) :
  Permutation (app (filter f l) (filter (fun x => negb (f x)) l)) l.
Proof.
  induction l as [|x l IH]; simpl; [constructor|].
  destruct (f x); simpl.
  - constructor. exact IH.
  - rewrite <- Permutation_middle. constructor. exact IH.
Qed.

Lemma Sorted_map {B : Type} (g : A -> B) (R : B -> B -> Prop) (l : list A) :
  Sorted (fun a b => R (g a) (g b)) l -> Sorted R (map g l).
Proof.
  induction 1 as [|x l _ IH Hd]; simpl; constructor; [exact IH|].
  destruct Hd; simpl; constructor. assumption.
Qed.

End ListFacts.

Lemma map_fst_filter {V : Type} (g : string -> bool) (l : list (string * V)) :
  map fst (filter (fun kv => g (fst kv)) l) = filter g (map fst l).
Proof. symmetry. apply filter_map_swap. Qed.

Lemma sort_by_lower_perm {V : Type} (str_lower : string -> string) (l : list (string * V)) :
  Permutation (sort_by_lower str_lower l) l.
Proof. apply sort_by_perm. Qed.

Lemma sort_by_lower_sorted {V : Type} (str_lower : string -> string) (l : list (string * V)) :
  Sorted (lower_le str_lower) (map fst (sort_by_lower str_lower l)).
Proof.
  apply (Sorted_map fst (lower_le str_lower)).
  apply (sort_by_sorted (fun kv : string * V => str_lower (fst kv)) String.leb).
  apply String.leb_total.
Qed.

Lemma sort_scope_safe_shape (str_lower : string -> string) (d : scope) :
  NoDup (map fst d) ->
  sort_scope_safe str_lower d
  = app (filter (fun kv => is_dangerous (fst kv)) d)
        (sort_by_lower str_lower (filter (fun kv => negb (is_dangerous (fst kv))) d)).
Proof.
  intros Hd. unfold sort_scope_safe.
  set (safe := filter (fun kv => negb (is_dangerous (fst kv))) d).
  set (dang := filter (fun kv => is_dangerous (fst kv)) d).
  assert (Hs : NoDup (map fst safe)).
  { unfold safe. rewrite (map_fst_filter (fun k => negb (is_dangerous k))).
    apply NoDup_filter, Hd. }
  assert (Hg : NoDup (map fst dang)).
  { unfold dang. rewrite (map_fst_filter is_dangerous). apply NoDup_filter, Hd. }
  assert (Hss : NoDup (map fst (sort_by_lower str_lower safe))).
  { apply (Permutation_NoDup (l := map fst safe)); [|exact Hs].
    apply Permutation_map. symmetry. apply sort_by_lower_perm. }
  rewrite (od_of_nodup safe Hs), (od_of_nodup dang Hg), (od_of_nodup _ Hss).
  rewrite (od_update_fresh [] dang Hg). cbn [app].
  apply od_update_fresh. rewrite map_app. apply NoDup_app; [exact Hg|exact Hss|].
  intros k Hk Hk'.
  unfold dang in Hk. rewrite (map_fst_filter is_dangerous), filter_In in Hk.
  apply (Permutation_in (l' := map fst safe)) in Hk';
    [|apply Permutation_map, sort_by_lower_perm].
  unfold safe in Hk'.
  rewrite (map_fst_filter (fun k => negb (is_dangerous k))), filter_In in Hk'.
  destruct Hk as [_ H1], Hk' as [_ H2]. rewrite H1 in H2. discriminate.
Qed.

Lemma sort_scope_safe_ok (str_lower : string -> string) (d : scope) :
  NoDup (map fst d) -> safe_sorted str_lower d (sort_scope_safe str_lower d).
Proof.
  intros Hd. rewrite (sort_scope_safe_shape str_lower d Hd).
  set (safe := filter (fun kv => negb (is_dangerous (fst kv))) d).
  set (dang := filter (fun kv => is_dangerous (fst kv)) d).
  assert (Hdang : forall k, In k (map fst dang) -> is_dangerous k = true).
  { intros k Hk. unfold dang in Hk.
    rewrite (map_fst_filter is_dangerous), filter_In in Hk. apply Hk. }
  assert (Hsafe : forall k, In k (map fst (sort_by_lower str_lower safe)) ->
                            is_dangerous k = false).
  { intros k Hk.
    apply (Permutation_in (l' := map fst safe)) in Hk;
      [|apply Permutation_map, sort_by_lower_perm].
    unfold safe in Hk.
    rewrite (map_fst_filter (fun k => negb (is_dangerous k))), filter_In in Hk.
    destruct Hk as [_ Hk]. destruct (is_dangerous k); [discriminate|reflexivity]. }
  unfold safe_sorted. rewrite map_app, !filter_app. split; [|split].
  - rewrite (filter_none is_dangerous (map fst (sort_by_lower str_lower safe)) Hsafe),
      app_nil_r.
    unfold dang. rewrite (map_fst_filter is_dangerous). apply filter_idem.
  - rewrite (filter_none _ (map fst dang)); cbn [app].
    + rewrite filter_all; [apply sort_by_lower_sorted|].
      intros k Hk. rewrite (Hsafe k Hk). reflexivity.
    + intros k Hk. rewrite (Hdang k Hk). reflexivity.
  - rewrite sort_by_lower_perm. unfold dang, safe.
    apply (filter_partition_perm (fun kv : string * CSSRule => is_dangerous (fst kv))).
Qed.

Lemma sel_step_nodup props (acc : scope * stats) (sel : string) :
  NoDup (map fst (fst acc)) -> NoDup (map fst (fst (sel_step props acc sel))).
Proof.
  destruct acc as [d s]. simpl. intros Hd. unfold sel_step.
  destruct (is_empty (py_strip sel)); [exact Hd|].
  set (d' := if od_mem (py_strip sel) d then d
             else od_set (py_strip sel) (new_rule (py_strip sel)) d).
  assert (Hd' : NoDup (map fst d')).
  { unfold d'. destruct (od_mem _ d); [exact Hd|apply od_set_nodup, Hd]. }
  destruct (add_props _ _ _). apply od_set_nodup, Hd'.
Qed.

Lemma add_to_scope_nodup props sels (d : scope) (s : stats) :
  NoDup (map fst d) -> NoDup (map fst (fst (add_to_scope props sels d s))).
Proof.
  unfold add_to_scope. change d with (fst (d, s)) at 1. generalize (d, s).
  induction sels as [|sel sels IH]; intros acc Hd; simpl; [exact Hd|].
  apply IH, sel_step_nodup, Hd.
Qed.

Lemma process_qualified_rule_nodup (P : parser) (p b : string)
    (mc : option string) (c : compiler) :
  scopes_nodup c -> scopes_nodup (process_qualified_rule P p b mc c).
Proof.
  intros [Hr Hm]. unfold process_qualified_rule.
  destruct (is_empty (py_strip (serialize_tokens p))); [split; assumption|].
  destruct (parse_declaration_block P b _) as [props s2].
  destruct props as [|pv props]; [split; assumption|].
  cbn [with_stats rules media_queries cstats at_rules].
  destruct (truthy mc) as [cond|].
  - set (mq := if od_mem cond (media_queries c) then media_queries c
               else od_set cond [] (media_queries c)).
    assert (Hmq : Forall (fun cd => NoDup (map fst (snd cd))) mq).
    { unfold mq. destruct (od_mem cond _); [exact Hm|].
      apply (od_set_forall (fun d : scope => NoDup (map fst d))); [exact Hm|constructor]. }
    set (target := match od_get cond mq with Some t => t | None => [] end).
    assert (Ht : NoDup (map fst target)).
    { unfold target. destruct (od_get cond mq) eqn:E; [|constructor].
      exact (od_get_forall (fun d : scope => NoDup (map fst d)) _ _ _ Hmq E). }
    pose proof (add_to_scope_nodup (pv :: props) (split_selectors (py_strip (serialize_tokens p)))
                  target s2 Ht) as Hn.
    destruct (add_to_scope _ _ _ _) as [t' s3]. split; [exact Hr|].
    apply (od_set_forall (fun d : scope => NoDup (map fst d))); [exact Hmq|exact Hn].
  - pose proof (add_to_scope_nodup (pv :: props) (split_selectors (py_strip (serialize_tokens p)))
                  (rules c) s2 Hr) as Hn.
    destruct (add_to_scope _ _ _ _) as [t' s3]. split; assumption.
Qed.

Lemma media_body_nodup (P : parser) (cond : string) (ns : list node) (c : compiler) :
  scopes_nodup c -> scopes_nodup (media_body P cond ns c).
Proof.
  unfold media_body. revert c.
  induction ns as [|n ns IH]; intros c Hc; simpl; [exact Hc|].
  apply IH. destruct n; [apply process_qualified_rule_nodup|..]; exact Hc.
Qed.

Lemma process_stylesheet_nodup (P : parser) (ns : list node) (c : compiler) :
  scopes_nodup c -> scopes_nodup (process_stylesheet P ns c).
Proof.
  unfold process_stylesheet. revert c.
  induction ns as [|n ns IH]; intros c Hc; simpl; [exact Hc|].
  apply IH. destruct n as [p b|kw p b|m]; simpl.
  - apply process_qualified_rule_nodup, Hc.
  - unfold process_at_rule.
    destruct (String.eqb (ascii_lower kw) "media").
    + destruct b as [b|]; [|exact Hc].
      destruct (is_empty b); [exact Hc|]. apply media_body_nodup, Hc.
    + destruct (String.eqb (ascii_lower kw) "keyframes"); exact Hc.
  - exact Hc.
Qed.

(** C7: with alphabetical ordering and safe mode, [sort_rules] acts on
    every scope of a processed stylesheet (the top-level scope, then each
    media scope in order) as follows.  The dangerous selectors (those that
    contain one of [dangerous_patterns]) keep their order.  The other
    selectors come out ordered by their lowercased text ([str_lower] is
    Python's [str.lower]; any lowering function gives the result), in the
    order of [String.leb], i.e. of code points.  No rule is added or lost,
    and the media conditions are unchanged. *)
Theorem c7_safe_sort_keeps_dangerous_order (str_lower : string -> string)
    (P : parser) (ns : list node) :
  let c := process_stylesheet P ns init in
  let c' := sort_rules str_lower true c in
  Forall2 (fun d d' =>
             filter is_dangerous (map fst d') = filter is_dangerous (map fst d)
             /\ Sorted (lower_le str_lower) (filter (fun k => negb (is_dangerous k)) (map fst d'))
             /\ Permutation d' d)
          (rules c :: map snd (media_queries c))
          (rules c' :: map snd (media_queries c'))
  /\ map fst (media_queries c') = map fst (media_queries c).
Proof.
  intros c c'.
  destruct (process_stylesheet_nodup P ns init
              (conj (NoDup_nil _) (Forall_nil _))) as [Hr Hm].
  fold c in Hr, Hm.
  unfold c', sort_rules. cbn [rules media_queries]. split.
  - constructor; [apply sort_scope_safe_ok, Hr|].
    induction Hm as [|[k d] mq Hd _ IH]; simpl; constructor;
      [apply sort_scope_safe_ok, Hd|exact IH].
  - rewrite map_map. reflexivity.
Qed.

(* ------------------------------------------------------------------ *)
(** ** Keyframes at-rules *)

Lemma find_keyframes_existsb (name : string) (l : list at_entry) :
  find_keyframes name l = existsb (is_kf name) l.
Proof. induction l as [|a l IH]; simpl; [reflexivity|]. rewrite IH. reflexivity. Qed.

Lemma is_kf_same_key (m t : string) (a : at_entry) :
  is_kf m (mkAt (ar_keyword a) (ar_name a) t) = is_kf m a.
Proof. reflexivity. Qed.

Lemma is_kf_diff (n m : string) (a : at_entry) :
  is_kf n a = true -> m <> n -> is_kf m a = false.
Proof.
  unfold is_kf. destruct (String.eqb (ar_keyword a) "keyframes"); [|discriminate].
  destruct (ar_name a) as [x|]; [|discriminate]. simpl.
  intros Hx Hmn. apply String.eqb_eq in Hx. subst.
  apply String.eqb_neq. congruence.
Qed.

Lemma replace_keyframes_count (name t m : string) (l : list at_entry) :
  length (filter (is_kf m) (replace_keyframes name t l))
  = length (filter (is_kf m) l).
Proof.
  induction l as [|a l IH]; simpl; [reflexivity|].
  fold (is_kf name a). destruct (is_kf name a); simpl.
  - rewrite is_kf_same_key. destruct (is_kf m a); reflexivity.
  - destruct (is_kf m a); simpl; rewrite IH; reflexivity.
Qed.

Lemma replace_keyframes_nth_other (name t : string) (l : list at_entry)
    (i : nat) (e : at_entry) :
  nth_error l i = Some e -> is_kf name e = false ->
  nth_error (replace_keyframes name t l) i = Some e.
Proof.
  revert i. induction l as [|a l IH]; intros i Hi He; [destruct i; discriminate|].
  simpl. fold (is_kf name a). destruct i as [|i]; simpl in Hi.
  - injection Hi as ->. rewrite He. reflexivity.
  - destruct (is_kf name a); [exact Hi|]. apply IH; assumption.
Qed.

Lemma replace_keyframes_nth_unique (n t : string) (l : list at_entry)
    (i : nat) (e : at_entry) :
  length (filter (is_kf n) l) = 1 -> nth_error l i = Some e -> is_kf n e = true ->
  nth_error (replace_keyframes n t l) i = Some (mkAt (ar_keyword e) (ar_name e) t).
Proof.
  revert i. induction l as [|a l IH]; intros i Hc Hi He; [destruct i; discriminate|].
  simpl in *. fold (is_kf n a) in *. destruct i as [|i]; simpl in Hi.
  - injection Hi as ->. rewrite He. reflexivity.
  - destruct (is_kf n a) eqn:Ha.
    + exfalso. simpl in Hc. injection Hc as Hc.
      apply length_zero_iff_nil in Hc.
      assert (Hin : In e (filter (is_kf n) l))
        by (apply filter_In; split; [apply (nth_error_In _ _ Hi)|exact He]).
      rewrite Hc in Hin. destruct Hin.
    + apply IH; assumption.
Qed.

Lemma replace_keyframes_length (name t : string) (l : list at_entry) :
  length (replace_keyframes name t l) = length l.
Proof.
  induction l as [|a l IH]; simpl; [reflexivity|].
  destruct (_ && _); simpl; congruence.
Qed.

Lemma is_kf_self (n t : string) : is_kf n (mkAt "keyframes" (Some n) t) = true.
Proof. unfold is_kf. cbn [ar_keyword ar_name]. rewrite !String.eqb_refl. reflexivity. Qed.

Lemma is_kf_other_name (n m t : string) :
  m <> n -> is_kf n (mkAt "keyframes" (Some m) t) = false.
Proof.
  intros H. unfold is_kf. cbn [ar_keyword ar_name].
  rewrite String.eqb_refl, (proj2 (String.eqb_neq m n) H). reflexivity.
Qed.

Lemma is_kf_other_keyword (n : string) (x : at_entry) :
  String.eqb (ar_keyword x) "keyframes" = false -> is_kf n x = false.
Proof. intros H. unfold is_kf. rewrite H. reflexivity. Qed.

Lemma keyframes_node_at_rules (P : parser) (kw p : string) (b : option string)
    (c : compiler) (m : string) :
  keyframes_name (AtRule kw p b) = Some m ->
  at_rules (process_node P (AtRule kw p b) c)
  = if find_keyframes m (at_rules c)
    then replace_keyframes m (serialize_node kw p b) (at_rules c)
    else app (at_rules c) [mkAt "keyframes" (Some m) (serialize_node kw p b)].
Proof.
  cbn [keyframes_name]. intros H.
  destruct (String.eqb_spec (ascii_lower kw) "keyframes") as [E|]; [|discriminate].
  injection H as <-. cbn [process_node]. unfold process_at_rule. rewrite E.
  cbn [String.eqb Ascii.eqb Bool.eqb at_rules]. reflexivity.
Qed.

Lemma other_node_at_rules (P : parser) (nd : node) (c : compiler) :
  keyframes_name nd = None ->
  at_rules (process_node P nd c) = at_rules c
  \/ exists x, at_rules (process_node P nd c) = app (at_rules c) [x]
               /\ String.eqb (ar_keyword x) "keyframes" = false.
Proof.
  destruct nd as [p b|kw p b|msg]; cbn [keyframes_name process_node]; intros H.
  - left. apply process_qualified_rule_at_rules.
  - destruct (String.eqb (ascii_lower kw) "keyframes") eqn:Ek; [discriminate|].
    unfold process_at_rule.
    destruct (String.eqb (ascii_lower kw) "media").
    + left. destruct b as [b|]; [|reflexivity].
      destruct (is_empty b); [reflexivity|rewrite media_body_at_rules; reflexivity].
    + rewrite Ek. right. eexists. split; [reflexivity|exact Ek].
  - left. reflexivity.
Qed.

Lemma count_zero_existsb {A : Type} (f : A -> bool) (l : list A) :
  length (filter f l) = 0 -> existsb f l = false.
Proof.
  induction l as [|x l IH]; simpl; [reflexivity|].
  destruct (f x); simpl; [discriminate|exact IH].
Qed.

Lemma nth_error_app_last {A : Type} (l : list A) (x : A) (i : nat) (e : A) :
  nth_error l i = Some e -> nth_error (app l [x]) i = Some e.
Proof.
  intros H. rewrite nth_error_app1; [exact H|].
  apply nth_error_Some. congruence.
Qed.

(** A node that is not a keyframes at-rule named [n] leaves the entry
    named [n] where it is, and the number of such entries unchanged. *)
Lemma step_other (P : parser) (nd : node) (c : compiler) (n : string) :
  keyframes_name nd <> Some n ->
  length (filter (is_kf n) (at_rules (process_node P nd c)))
  = length (filter (is_kf n) (at_rules c))
  /\ (forall i e, nth_error (at_rules c) i = Some e -> is_kf n e = true ->
       nth_error (at_rules (process_node P nd c)) i = Some e).
Proof.
  intros Hn. destruct (keyframes_name nd) as [m|] eqn:Hk.
  - assert (Hmn : m <> n) by congruence.
    destruct nd as [p b|kw p b|msg]; try discriminate.
    rewrite (keyframes_node_at_rules P kw p b c m Hk).
    destruct (find_keyframes m (at_rules c)).
    + split; [apply replace_keyframes_count|].
      intros i e Hi He. apply replace_keyframes_nth_other; [exact Hi|].
      apply (is_kf_diff n m e He Hmn).
    + split.
      * rewrite filter_app, length_app. cbn [filter].
        rewrite is_kf_other_name by exact Hmn. cbn [length]. lia.
      * intros i e Hi _. apply nth_error_app_last, Hi.
  - destruct (other_node_at_rules P nd c Hk) as [E|[x [E Hx]]]; rewrite E.
    + split; [reflexivity|auto].
    + split.
      * rewrite filter_app, length_app. cbn [filter].
        rewrite is_kf_other_keyword by exact Hx. cbn [length]. lia.
      * intros i e Hi _. apply nth_error_app_last, Hi.
Qed.

Lemma step_first (P : parser) (kw p : string) (b : option string) (c : compiler)
    (n : string) :
  keyframes_name (AtRule kw p b) = Some n ->
  length (filter (is_kf n) (at_rules c)) = 0 ->
  length (filter (is_kf n) (at_rules (process_node P (AtRule kw p b) c))) = 1
  /\ nth_error (at_rules (process_node P (AtRule kw p b) c)) (length (at_rules c))
     = Some (mkAt "keyframes" (Some n) (serialize_node kw p b)).
Proof.
  intros Hk H0. rewrite (keyframes_node_at_rules P kw p b c n Hk).
  rewrite find_keyframes_existsb, (count_zero_existsb _ _ H0). split.
  - rewrite filter_app, length_app, H0. cbn [filter]. rewrite is_kf_self. reflexivity.
  - rewrite nth_error_app2, Nat.sub_diag; reflexivity.
Qed.

Lemma step_again (P : parser) (kw p : string) (b : option string) (c : compiler)
    (n : string) (i : nat) (t : string) :
  keyframes_name (AtRule kw p b) = Some n ->
  length (filter (is_kf n) (at_rules c)) = 1 ->
  nth_error (at_rules c) i = Some (mkAt "keyframes" (Some n) t) ->
  length (filter (is_kf n) (at_rules (process_node P (AtRule kw p b) c))) = 1
  /\ nth_error (at_rules (process_node P (AtRule kw p b) c)) i
     = Some (mkAt "keyframes" (Some n) (serialize_node kw p b)).
Proof.
  intros Hk H1 Hi. rewrite (keyframes_node_at_rules P kw p b c n Hk).
  assert (Hf : find_keyframes n (at_rules c) = true).
  { rewrite find_keyframes_existsb. apply existsb_exists.
    exists (mkAt "keyframes" (Some n) t).
    split; [apply (nth_error_In _ _ Hi)|apply is_kf_self]. }
  rewrite Hf. split.
  - rewrite replace_keyframes_count. exact H1.
  - apply (replace_keyframes_nth_unique n _ _ i _ H1 Hi (is_kf_self n t)).
Qed.

Lemma process_stylesheet_cons (P : parser) (nd : node) (ns : list node) (c : compiler) :
  process_stylesheet P (nd :: ns) c = process_stylesheet P ns (process_node P nd c).
Proof. reflexivity. Qed.

Lemma process_stylesheet_app (P : parser) (ns1 ns2 : list node) (c : compiler) :
  process_stylesheet P (app ns1 ns2) c
  = process_stylesheet P ns2 (process_stylesheet P ns1 c).
Proof. unfold process_stylesheet. apply fold_left_app. Qed.

Lemma run_other (P : parser) (ns : list node) (c : compiler) (n : string) :
  Forall (fun nd => keyframes_name nd <> Some n) ns ->
  length (filter (is_kf n) (at_rules (process_stylesheet P ns c)))
  = length (filter (is_kf n) (at_rules c))
  /\ (forall i e, nth_error (at_rules c) i = Some e -> is_kf n e = true ->
       nth_error (at_rules (process_stylesheet P ns c)) i = Some e).
Proof.
  intros H. revert c. induction H as [|nd ns Hnd _ IH]; intros c.
  - split; auto.
  - rewrite process_stylesheet_cons.
    destruct (step_other P nd c n Hnd) as [E1 E2].
    destruct (IH (process_node P nd c)) as [F1 F2].
    split; [congruence|auto].
Qed.

Lemma run_any (P : parser) (ns : list node) (c : compiler) (n : string)
    (i : nat) (t : string) :
  length (filter (is_kf n) (at_rules c)) = 1 ->
  nth_error (at_rules c) i = Some (mkAt "keyframes" (Some n) t) ->
  exists t',
    length (filter (is_kf n) (at_rules (process_stylesheet P ns c))) = 1
    /\ nth_error (at_rules (process_stylesheet P ns c)) i
       = Some (mkAt "keyframes" (Some n) t').
Proof.
  revert c t. induction ns as [|nd ns IH]; intros c t H1 Hi; [exists t; auto|].
  rewrite process_stylesheet_cons.
  destruct (keyframes_name nd) as [m|] eqn:Hk.
  - destruct (String.eqb_spec m n) as [->|Hmn].
    + destruct nd as [p b|kw p b|msg]; try discriminate.
      destruct (step_again P kw p b c n i t Hk H1 Hi) as [G1 G2].
      exact (IH _ _ G1 G2).
    + destruct (step_other P nd c n ltac:(congruence)) as [E1 E2].
      apply (IH _ t); [congruence|apply E2; [exact Hi|apply is_kf_self]].
  - destruct (step_other P nd c n ltac:(congruence)) as [E1 E2].
    apply (IH _ t); [congruence|apply E2; [exact Hi|apply is_kf_self]].
Qed.

Lemma same_keys_refl (l : list at_entry) :
  Forall2 (fun a b => ar_keyword a = ar_keyword b /\ ar_name a = ar_name b) l l.
Proof. induction l; constructor; auto. Qed.

Lemma replace_keyframes_same_keys (name t : string) (l : list at_entry) :
  Forall2 (fun a b => ar_keyword a = ar_keyword b /\ ar_name a = ar_name b)
          l (replace_keyframes name t l).
Proof.
  induction l as [|a l IH]; simpl; [constructor|].
  destruct (_ && _); constructor; auto; apply same_keys_refl.
Qed.

Lemma od_get_od_set {V : Type} (k m : string) (v : V) (d : list (string * V)) :
  od_get k (od_set m v d) = if String.eqb k m then Some v else od_get k d.
Proof.
  induction d as [|[k' v'] d IH]; simpl.
  - reflexivity.
  - destruct (String.eqb_spec m k') as [->|Hm]; simpl.
    + destruct (String.eqb k k'); reflexivity.
    + rewrite IH. destruct (String.eqb_spec k k') as [->|]; [|reflexivity].
      rewrite (proj2 (String.eqb_neq k' m)) by congruence. reflexivity.
Qed.

Lemma skip_with_head (f : string -> nat) (k : nat) (s : string) :
  f "" = 0 -> f (skip_with f k s) = 0.
Proof.
  intros H0. revert k. induction s as [|c r IH]; intros k; simpl; [exact H0|].
  destruct k as [|k]; [|apply IH].
  destruct (f (String c r)) eqn:E; [exact E|apply IH].
Qed.

Lemma skip_with_id (f : string -> nat) (s : string) : f s = 0 -> skip_with f 0 s = s.
Proof. destruct s as [|c r]; simpl; [reflexivity|]. intros ->. reflexivity. Qed.

Lemma skip_with_suffix (f : string -> nat) (k : nat) (s : string) :
  exists w, s = w ++ skip_with f k s.
Proof.
  revert k. induction s as [|c r IH]; intros k; simpl; [exists ""; reflexivity|].
  destruct k as [|k].
  - destruct (f (String c r)) as [|j]; [exists ""; reflexivity|].
    destruct (IH j) as [w Hw]. exists (String c w). simpl. rewrite <- Hw. reflexivity.
  - destruct (IH k) as [w Hw]. exists (String c w). simpl. rewrite <- Hw. reflexivity.
Qed.

Lemma lstrip_idem (s : string) : lstrip (lstrip s) = lstrip s.
Proof. unfold lstrip. apply skip_with_id, skip_with_head. reflexivity. Qed.

Lemma rev_str_involutive (s : string) : rev_str (rev_str s) = s.
Proof.
  induction s as [|c r IH]; simpl; [reflexivity|].
  rewrite rev_str_app. simpl. now rewrite IH.
Qed.

Lemma rstrip_prefix (s : string) : exists w, s = rstrip s ++ w.
Proof.
  unfold rstrip. destruct (skip_with_suffix rws_len 0 (rev_str s)) as [w Hw].
  exists (rev_str w).
  rewrite <- rev_str_app, <- Hw, rev_str_involutive. reflexivity.
Qed.

(** A whitespace character at the start of [p] is still there, whole, in
    [p ++ q]. *)
Lemma ws_len_app (p q : string) : ws_len p <> 0 -> ws_len (p ++ q) = ws_len p.
Proof.
  destruct p as [|a [|b [|c p]]]; cbn [ws_len append]; [congruence| | |];
    destruct (ws1 a); try reflexivity; try congruence;
    destruct (ws2 a b); try reflexivity; try congruence;
    destruct (ws3 a b c); try reflexivity; congruence.
Qed.

Lemma lstrip_rstrip (s : string) : lstrip (rstrip (lstrip s)) = rstrip (lstrip s).
Proof.
  assert (Hh : ws_len (lstrip s) = 0) by (apply skip_with_head; reflexivity).
  destruct (rstrip_prefix (lstrip s)) as [w Hw].
  apply skip_with_id. destruct (ws_len (rstrip (lstrip s))) eqn:E; [reflexivity|].
  rewrite Hw, ws_len_app in Hh; congruence.
Qed.

Lemma rstrip_idem (s : string) : rstrip (rstrip s) = rstrip s.
Proof.
  unfold rstrip. rewrite rev_str_involutive.
  rewrite (skip_with_id rws_len (skip_with rws_len 0 (rev_str s))); [reflexivity|].
  apply skip_with_head. reflexivity.
Qed.

Lemma dedup_step_key (seen : list (string * nat)) (out : list at_entry) (a : at_entry) :
  dedup_step (seen, out) a =
  match dedup_key a with
  | None => (seen, app out [a])
  | Some n =>
    match od_get n seen with
    | Some idx => (seen, list_set idx a out)
    | None => (od_set n (length out) seen, app out [a])
    end
  end.
Proof.
  unfold dedup_step, dedup_key.
  destruct (String.eqb (ar_keyword a) "keyframes"); [|reflexivity].
  destruct (is_empty _); reflexivity.
Qed.

Lemma has_key_spec (n : string) (a : at_entry) :
  has_key n a = true <-> dedup_key a = Some n.
Proof.
  unfold has_key. destruct (dedup_key a) as [m|]; [|split; discriminate].
  rewrite String.eqb_eq. split; congruence.
Qed.

Lemma keys_of_app (x y : list at_entry) : keys_of (app x y) = app (keys_of x) (keys_of y).
Proof. unfold keys_of. apply flat_map_app. Qed.

Lemma keys_of_single (a : at_entry) :
  keys_of [a] = match dedup_key a with Some n => [n] | None => [] end.
Proof. unfold keys_of. simpl. rewrite app_nil_r. reflexivity. Qed.

Lemma in_keys_of (n : string) (l : list at_entry) :
  In n (keys_of l) <-> exists b, In b l /\ dedup_key b = Some n.
Proof.
  unfold keys_of. rewrite in_flat_map. split.
  - intros [b [Hb Hn]]. exists b. split; [exact Hb|].
    destruct (dedup_key b); [|destruct Hn]. destruct Hn as [->|[]]. reflexivity.
  - intros [b [Hb Hn]]. exists b. split; [exact Hb|]. rewrite Hn. left. reflexivity.
Qed.

Lemma dedup_key_kf (a : at_entry) (k : string) :
  dedup_key a = Some k -> String.eqb (ar_keyword a) "keyframes" = true.
Proof. unfold dedup_key. destruct (String.eqb _ _); [reflexivity|discriminate]. Qed.

Lemma dedup_key_named (a : at_entry) (m : string) :
  String.eqb (ar_keyword a) "keyframes" = true -> ar_name a = Some m -> m <> "" ->
  dedup_key a = Some m.
Proof.
  intros Hk Hm Hne. unfold dedup_key. rewrite Hk, Hm.
  destruct m; [congruence|reflexivity].
Qed.

Lemma in_kf_names (b : at_entry) (m : string) (l : list at_entry) :
  In b l -> String.eqb (ar_keyword b) "keyframes" = true -> ar_name b = Some m ->
  In m (kf_names l).
Proof.
  intros Hb Hk Hm. unfold kf_names. apply in_flat_map. exists b.
  rewrite Hk, Hm. split; [exact Hb|left; reflexivity].
Qed.

(** Distinct keyframes names give distinct deduplication names. *)
Lemma at_ok_keys (l : list at_entry) : at_ok l -> NoDup (keys_of l).
Proof.
  induction l as [|a l IH]; intros [Hn Hf]; [constructor|].
  inversion Hf as [|? ? Ha Hl]; subst.
  assert (Hl0 : Forall kf_entry_ok l) by exact Hl.
  assert (Hn' : NoDup (kf_names l)).
  { unfold kf_names in Hn. cbn [flat_map] in Hn. apply NoDup_app_remove_l in Hn. exact Hn. }
  change (a :: l) with (app [a] l). rewrite keys_of_app, keys_of_single.
  destruct (dedup_key a) as [k|] eqn:Ek; [|exact (IH (conj Hn' Hl0))].
  constructor; [|exact (IH (conj Hn' Hl0))].
  intros Hin. apply in_keys_of in Hin. destruct Hin as [b [Hb Ekb]].
  pose proof (dedup_key_kf a k Ek) as Hka. pose proof (dedup_key_kf b k Ekb) as Hkb.
  destruct (Ha Hka) as [ma [Hma Hia]].
  rewrite Forall_forall in Hl. destruct (Hl b Hb Hkb) as [mb [Hmb Hib]].
  assert (Heq : ma = mb).
  { specialize (Hia k Ek). specialize (Hib k Ekb).
    destruct (String.eqb_spec ma "") as [->|Hne]; [symmetry; tauto|].
    destruct (String.eqb_spec mb "") as [Hmb0|Hne']; [tauto|].
    rewrite (dedup_key_named a ma Hka Hma Hne) in Ek.
    rewrite (dedup_key_named b mb Hkb Hmb Hne') in Ekb. congruence. }
  subst mb. unfold kf_names in Hn. cbn [flat_map] in Hn. rewrite Hka, Hma in Hn.
  inversion Hn as [|? ? Hnot _]. apply Hnot. exact (in_kf_names b ma l Hb Hkb Hmb).
Qed.

(** With distinct deduplication names, [generate_output] keeps every
    at-rule where it is. *)
Lemma dedup_fold_id (l : list at_entry) :
  forall (seen : list (string * nat)) (out : list at_entry),
  NoDup (keys_of l) ->
  (forall n, In n (keys_of l) -> od_get n seen = None) ->
  snd (fold_left dedup_step l (seen, out)) = app out l.
Proof.
  induction l as [|a l IH]; intros seen out Hnd Hs.
  - simpl. rewrite app_nil_r. reflexivity.
  - cbn [fold_left]. rewrite dedup_step_key.
    change (a :: l) with (app [a] l) in Hnd, Hs. rewrite keys_of_app, keys_of_single in Hnd, Hs.
    replace (app out (a :: l)) with (app (app out [a]) l) by (rewrite <- app_assoc; reflexivity).
    destruct (dedup_key a) as [k|] eqn:Ek.
    + rewrite (Hs k (or_introl eq_refl)).
      inversion Hnd as [|? ? Hk Hnd']; subst.
      apply IH; [exact Hnd'|]. intros n Hn. rewrite od_get_od_set.
      destruct (String.eqb_spec n k) as [->|]; [contradiction|].
      apply Hs. right. exact Hn.
    + apply IH; assumption.
Qed.

Lemma dedup_nodup_id (l : list at_entry) : NoDup (keys_of l) -> dedup_at_rules l = l.
Proof.
  intros H. unfold dedup_at_rules. apply (dedup_fold_id l [] [] H). reflexivity.
Qed.

Lemma ws_len_le (s : string) : ws_len s <= String.length s.
Proof.
  destruct s as [|a [|b [|c s]]]; cbn [ws_len String.length]; [lia| | |];
    destruct (ws1 a); try lia; destruct (ws2 a b); try lia; destruct (ws3 a b c); lia.
Qed.

(** Stripping a blank prefix leaves the stripping of what follows. *)
Lemma skip_blank_app (p q : string) (k : nat) :
  k <= String.length p -> skip_with ws_len k p = "" ->
  skip_with ws_len k (p ++ q) = lstrip q.
Proof.
  revert k. induction p as [|c r IH]; intros k Hk H.
  - cbn [String.length] in Hk. assert (k = 0) as -> by lia. reflexivity.
  - cbn [String.length] in Hk. destruct k as [|k].
    + cbn [skip_with] in H.
      destruct (ws_len (String c r)) as [|j] eqn:E; [discriminate|].
      change (String c r ++ q) with (String c (r ++ q)) in *.
      cbn [skip_with]. change (String c (r ++ q)) with (String c r ++ q).
      rewrite (ws_len_app (String c r) q) by congruence. rewrite E.
      apply IH; [|exact H]. pose proof (ws_len_le (String c r)) as L.
      rewrite E in L. cbn [String.length] in L. lia.
    + cbn [skip_with]. apply IH; [lia|exact H].
Qed.

Lemma substring_full (y : string) : String.substring 0 (String.length y) y = y.
Proof. induction y as [|c y IH]; cbn; [reflexivity|]. rewrite IH. reflexivity. Qed.

Lemma substring_app (x y : string) :
  String.substring (String.length x) (String.length (x ++ y) - String.length x) (x ++ y) = y.
Proof.
  induction x as [|c x IH]; cbn [String.length append].
  - rewrite Nat.sub_0_r. apply substring_full.
  - cbn [String.substring]. exact IH.
Qed.

Lemma ascii_lower_length (s : string) : String.length (ascii_lower s) = String.length s.
Proof. induction s as [|c s IH]; cbn; [reflexivity|]. rewrite IH. reflexivity. Qed.

(** The name [generate_output] reads from the serialisation of a
    [@keyframes] with a whitespace-only prelude starts with the [{] of its
    block or with its [;]. *)
Lemma match_blank_prelude (kw p : string) (b : option string) (k : string) :
  String.length kw = 9 -> lstrip p = "" ->
  match_keyframes_name (serialize_node kw p b) = Some k -> brace_start k = true.
Proof.
  intros Hl Hp. unfold match_keyframes_name, serialize_node.
  destruct (String.prefix _ _); [|discriminate].
  set (tail := match b with Some b0 => "{" ++ b0 ++ "}" | None => ";" end).
  assert (Hx : String.length ("@" ++ kw) = 10) by (cbn; rewrite Hl; reflexivity).
  replace ("@" ++ kw ++ p ++ tail) with (("@" ++ kw) ++ (p ++ tail))
    by reflexivity.
  rewrite <- Hx, substring_app.
  destruct (ws_len (p ++ tail) =? 0)%nat; [discriminate|].
  unfold lstrip. rewrite (skip_blank_app p tail 0 ltac:(lia) Hp).
  assert (Hw : ws_len tail = 0)
    by (unfold tail; destruct b as [b0|]; [|reflexivity];
        destruct b0 as [|x [|y r]]; reflexivity).
  unfold lstrip. rewrite (skip_with_id ws_len tail Hw).
  assert (Ht : exists c r, tail = String c r /\ brace_start (String c r) = true)
    by (unfold tail; destruct b; eexists _, _; split; reflexivity).
  destruct Ht as (c & r & Et & Hb). rewrite Et in *.
  cbn [take_nonws]. rewrite Hw. cbn [Nat.eqb is_empty].
  intros H. injection H as <-. exact Hb.
Qed.

(** The entry [process_at_rule] stores for a well-formed [@keyframes]. *)
Lemma stored_kf_entry_ok (kw p : string) (b : option string) (m : string) :
  kf_prelude_ok (AtRule kw p b) -> keyframes_name (AtRule kw p b) = Some m ->
  kf_entry_ok (mkAt "keyframes" (Some m) (serialize_node kw p b)).
Proof.
  cbn [keyframes_name kf_prelude_ok]. intros Hok Hn.
  destruct (String.eqb (ascii_lower kw) "keyframes") eqn:Ek; [|discriminate].
  injection Hn as Hn. destruct (Hok eq_refl) as [Hblank Hbr]. rewrite Hn in Hblank, Hbr.
  intros _. exists m. split; [reflexivity|]. intros k Hk.
  unfold dedup_key in Hk. cbn [ar_keyword ar_name ar_content String.eqb] in Hk.
  destruct m as [|c m'].
  - cbn [is_empty] in Hk.
    destruct (match_keyframes_name (serialize_node kw p b)) as [k'|] eqn:Em; [|discriminate].
    destruct k' as [|c' k']; [discriminate|]. cbn [is_empty] in Hk. injection Hk as <-.
    split; [intros _|reflexivity].
    apply (match_blank_prelude kw p b); [|apply Hblank; reflexivity|exact Em].
    rewrite <- ascii_lower_length. apply String.eqb_eq in Ek. rewrite Ek. reflexivity.
  - cbn [is_empty] in Hk. injection Hk as <-. rewrite Hbr. split; discriminate.
Qed.

Lemma kf_names_app (x y : list at_entry) : kf_names (app x y) = app (kf_names x) (kf_names y).
Proof. unfold kf_names. apply flat_map_app. Qed.

Lemma kf_names_same_keys (l1 l2 : list at_entry) :
  Forall2 (fun a b => ar_keyword a = ar_keyword b /\ ar_name a = ar_name b) l1 l2 ->
  kf_names l1 = kf_names l2.
Proof.
  induction 1 as [|a b l1 l2 [Hk Hn] _ IH]; [reflexivity|].
  unfold kf_names in *. cbn [flat_map]. rewrite Hk, Hn, IH. reflexivity.
Qed.

Lemma replace_keyframes_ok (name t : string) (l : list at_entry) :
  kf_entry_ok (mkAt "keyframes" (Some name) t) ->
  Forall kf_entry_ok l -> Forall kf_entry_ok (replace_keyframes name t l).
Proof.
  intros Hnew. induction 1 as [|a l Ha Hl IH]; cbn [replace_keyframes]; [constructor|].
  destruct (String.eqb (ar_keyword a) "keyframes") eqn:Ek; cbn [andb];
    [|constructor; assumption].
  destruct (ar_name a) as [n|] eqn:En; [|constructor; assumption].
  destruct (String.eqb_spec n name) as [->|]; [|constructor; assumption].
  apply String.eqb_eq in Ek. rewrite Ek. constructor; assumption.
Qed.

Lemma not_in_kf_names (m : string) (l : list at_entry) :
  existsb (is_kf m) l = false -> ~ In m (kf_names l).
Proof.
  intros H Hin. unfold kf_names in Hin. apply in_flat_map in Hin.
  destruct Hin as [a [Ha Hm]].
  destruct (String.eqb (ar_keyword a) "keyframes") eqn:Ek; [|destruct Hm].
  destruct (ar_name a) as [n|] eqn:En; [|destruct Hm]. destruct Hm as [->|[]].
  assert (Hk : is_kf m a = true) by (unfold is_kf; rewrite Ek, En, String.eqb_refl; reflexivity).
  assert (existsb (is_kf m) l = true) by (apply existsb_exists; exists a; auto). congruence.
Qed.

Lemma step_at_ok (P : parser) (nd : node) (c : compiler) :
  kf_prelude_ok nd -> at_ok (at_rules c) -> at_ok (at_rules (process_node P nd c)).
Proof.
  intros Hnd [Hn Hf]. destruct (keyframes_name nd) as [m|] eqn:Hk.
  - destruct nd as [p b|kw p b|msg]; try discriminate.
    pose proof (stored_kf_entry_ok kw p b m Hnd Hk) as Hnew.
    rewrite (keyframes_node_at_rules P kw p b c m Hk).
    destruct (find_keyframes m (at_rules c)) eqn:Ef.
    + split.
      * rewrite <- (kf_names_same_keys _ _ (replace_keyframes_same_keys m _ (at_rules c))).
        exact Hn.
      * apply replace_keyframes_ok; assumption.
    + rewrite find_keyframes_existsb in Ef. split.
      * rewrite kf_names_app. unfold kf_names at 2. cbn. apply NoDup_app.
        -- exact Hn.
        -- constructor; [intros []|constructor].
        -- intros x Hx [<-|[]]. exact (not_in_kf_names _ _ Ef Hx).
      * apply Forall_app. split; [exact Hf|constructor; [exact Hnew|constructor]].
  - destruct (other_node_at_rules P nd c Hk) as [E|[x [E Hx]]]; rewrite E; [split; assumption|].
    split.
    + rewrite kf_names_app. unfold kf_names at 2. cbn. rewrite Hx. cbn. rewrite app_nil_r. exact Hn.
    + apply Forall_app. split; [exact Hf|]. constructor; [|constructor].
      intros Hx'. congruence.
Qed.

Lemma run_at_ok (P : parser) (ns : list node) (c : compiler) :
  Forall kf_prelude_ok ns -> at_ok (at_rules c) ->
  at_ok (at_rules (process_stylesheet P ns c)).
Proof.
  intros H. revert c. induction H as [|nd ns Hnd _ IH]; intros c Hc; [exact Hc|].
  rewrite process_stylesheet_cons. apply IH, step_at_ok; assumption.
Qed.

(** C4 (amended): take a top-level stylesheet as tinycss2 returns it, so
    that every top-level [@keyframes] has the shape of [kf_prelude_ok]: the
    name read from its prelude does not start with [{] or [;], and a blank
    name comes from a whitespace-only prelude.  Let the first and the last
    top-level [@keyframes] named [n] be the nodes [AtRule kw1 p1 b1] and
    [AtRule kw2 p2 b2]; [pre] is everything before the first and [post]
    everything after the last.  Then the emitted at-rule list holds
    exactly one entry named [n].  That entry stands where the first
    occurrence was stored, after the at-rules of [pre].  Its content is
    the serialisation of the last occurrence. *)
Theorem c4_top_level_keyframes_dedup (P : parser) (pre mid post : list node)
    (kw1 p1 kw2 p2 n : string) (b1 b2 : option string)
    (H1 : keyframes_name (AtRule kw1 p1 b1) = Some n)
    (H2 : keyframes_name (AtRule kw2 p2 b2) = Some n)
    (Hpre : Forall (fun nd => keyframes_name nd <> Some n) pre)
    (Hpost : Forall (fun nd => keyframes_name nd <> Some n) post)
    (Hok : Forall kf_prelude_ok
             (app pre (AtRule kw1 p1 b1 :: app mid (AtRule kw2 p2 b2 :: post)))) :
  let E := dedup_at_rules (at_rules (process_stylesheet P
             (app pre (AtRule kw1 p1 b1 :: app mid (AtRule kw2 p2 b2 :: post))) init)) in
  nth_error E (length (at_rules (process_stylesheet P pre init)))
  = Some (mkAt "keyframes" (Some n) (serialize_node kw2 p2 b2))
  /\ length (filter (is_kf n) E) = 1.
Proof.
  intros E. unfold E.
  rewrite dedup_nodup_id
    by (apply at_ok_keys, run_at_ok; [exact Hok|split; constructor]).
  rewrite process_stylesheet_app, process_stylesheet_cons,
          process_stylesheet_app, process_stylesheet_cons.
  set (c0 := process_stylesheet P pre init).
  destruct (run_other P pre init n Hpre) as [C0 _]. fold c0 in C0.
  destruct (step_first P kw1 p1 b1 c0 n H1 C0) as [D1 D2].
  destruct (run_any P mid _ n _ _ D1 D2) as [t [F1 F2]].
  destruct (step_again P kw2 p2 b2 _ n _ t H2 F1 F2) as [G1 G2].
  destruct (run_other P post (process_node P (AtRule kw2 p2 b2)
              (process_stylesheet P mid (process_node P (AtRule kw1 p1 b1) c0))) n Hpost)
    as [K1 K2].
  split; [apply K2; [exact G2|apply is_kf_self]|congruence].
Qed.

(** C4: the theorem applied to [a{color:red} @keyframes x{...}
    @keyframes y{...} @keyframes {...} @keyframes x{...}], with a blank
    [@keyframes] among them. *)
Lemma c4_top_level_keyframes_dedup_witness :
  let pre := [QualifiedRule "a" "color:red"] in
  let mid := [AtRule "keyframes" " y" (Some "to{top:0}");
              AtRule "keyframes" " " (Some "to{left:0}")] in
  let post := @nil node in
  keyframes_name (AtRule "keyframes" " x" (Some "from{color:red}")) = Some "x"
  /\ keyframes_name (AtRule "keyframes" " x" (Some "from{color:blue}")) = Some "x"
  /\ Forall (fun nd => keyframes_name nd <> Some "x") pre
  /\ Forall (fun nd => keyframes_name nd <> Some "x") post
  /\ Forall kf_prelude_ok
       (app pre (AtRule "keyframes" " x" (Some "from{color:red}")
                 :: app mid (AtRule "keyframes" " x" (Some "from{color:blue}") :: post)))
  /\ (let E := dedup_at_rules (at_rules (process_stylesheet Tiny.tinycss2
            (app pre (AtRule "keyframes" " x" (Some "from{color:red}")
                      :: app mid (AtRule "keyframes" " x" (Some "from{color:blue}") :: post)))
            init)) in
      nth_error E (length (at_rules (process_stylesheet Tiny.tinycss2 pre init)))
      = Some (mkAt "keyframes" (Some "x")
                (serialize_node "keyframes" " x" (Some "from{color:blue}")))
      /\ length (filter (is_kf "x") E) = 1).
Proof.
  intros pre mid post.
  assert (H1 : keyframes_name (AtRule "keyframes" " x" (Some "from{color:red}")) = Some "x")
    by (vm_compute; reflexivity).
  assert (H2 : keyframes_name (AtRule "keyframes" " x" (Some "from{color:blue}")) = Some "x")
    by (vm_compute; reflexivity).
  assert (H3 : Forall (fun nd => keyframes_name nd <> Some "x") pre)
    by (repeat constructor; vm_compute; discriminate).
  assert (H4 : Forall (fun nd => keyframes_name nd <> Some "x") post) by constructor.
  assert (H5 : Forall kf_prelude_ok
       (app pre (AtRule "keyframes" " x" (Some "from{color:red}")
                 :: app mid (AtRule "keyframes" " x" (Some "from{color:blue}") :: post))))
    by (unfold pre, mid, post; cbn [app];
        repeat apply Forall_cons; try apply Forall_nil; cbn [kf_prelude_ok]; try exact I;
        (intros _; split;
         [intros E; vm_compute; vm_compute in E; first [reflexivity | discriminate E]
         |vm_compute; reflexivity])).
  split; [exact H1|]. split; [exact H2|]. split; [exact H3|]. split; [exact H4|].
  split; [exact H5|].
  exact (c4_top_level_keyframes_dedup Tiny.tinycss2 pre mid post "keyframes" " x"
           "keyframes" " x" "x" (Some "from{color:red}") (Some "from{color:blue}")
           H1 H2 H3 H4 H5).
Defined.

(** Selectors within one scope are unique: after any stylesheet has been
    processed from the initial state, the top-level scope and every media
    scope hold pairwise distinct selectors. *)
Theorem scopes_have_unique_selectors (P : parser) (ns : list node) :
  NoDup (map fst (rules (process_stylesheet P ns init)))
  /\ Forall (fun cd => NoDup (map fst (snd cd)))
            (media_queries (process_stylesheet P ns init)).
Proof.
  apply process_stylesheet_nodup. split; constructor.
Qed.

(* ================================================================== *)
(** * Further properties of the code *)

(* ------------------------------------------------------------------ *)
(** ** [CSSRule]: insertion, lookup and merging *)

Lemma od_get_none {V : Type} (k : string) (d : list (string * V)) :
  ~ In k (map fst d) -> od_get k d = None.
Proof.
  induction d as [|[k' v'] d IH]; simpl; intros Hn; [reflexivity|].
  destruct (String.eqb_spec k k'); [subst; tauto|]. apply IH. tauto.
Qed.

Lemma In_map_fst_od_get {V : Type} (k : string) (d : list (string * V)) :
  In k (map fst d) <-> od_get k d <> None.
Proof.
  induction d as [|[k' v'] d IH]; simpl; [split; [intros []|congruence]|].
  destruct (String.eqb_spec k k') as [->|Hk].
  - split; [discriminate|left; reflexivity].
  - rewrite <- IH. split; [intros [H|H]; [congruence|exact H]|right; exact H].
Qed.

Lemma od_mem_od_set {V : Type} (k m : string) (v : V) (d : list (string * V)) :
  od_mem k (od_set m v d) = String.eqb k m || od_mem k d.
Proof.
  unfold od_mem. rewrite od_get_od_set. now destruct (String.eqb k m).
Qed.

Lemma od_set_keys {V : Type} (k : string) (v : V) (d : list (string * V)) :
  map fst (od_set k v d) = if od_mem k d then map fst d else app (map fst d) [k].
Proof.
  unfold od_mem. induction d as [|[k' v'] d IH]; simpl; [reflexivity|].
  destruct (String.eqb_spec k k') as [->|Hk]; simpl.
  - reflexivity.
  - rewrite IH. destruct (od_get k d); reflexivity.
Qed.

Lemma od_update_get {V : Type} (k : string) (o d : list (string * V)) :
  NoDup (map fst o) ->
  od_get k (od_update d o) = match od_get k o with Some v => Some v | None => od_get k d end.
Proof.
  revert d. induction o as [|[k' v'] o IH]; intros d Ho; [reflexivity|].
  simpl in Ho. inversion Ho as [|? ? Hn Ho']; subst.
  unfold od_update. cbn [fold_left fst snd]. fold (od_update (od_set k' v' d) o).
  rewrite IH by exact Ho'. cbn [od_get]. rewrite od_get_od_set.
  destruct (String.eqb_spec k k') as [->|Hk].
  - rewrite (od_get_none k' o Hn). reflexivity.
  - destruct (od_get k o); reflexivity.
Qed.

Lemma od_update_keys {V : Type} (o d : list (string * V)) :
  NoDup (map fst o) ->
  map fst (od_update d o)
  = app (map fst d) (filter (fun k => negb (od_mem k d)) (map fst o)).
Proof.
  revert d. induction o as [|[k' v'] o IH]; intros d Ho.
  - simpl. rewrite app_nil_r. reflexivity.
  - simpl in Ho. inversion Ho as [|? ? Hn Ho']; subst.
    unfold od_update. cbn [fold_left fst snd]. fold (od_update (od_set k' v' d) o).
    rewrite IH by exact Ho'. rewrite od_set_keys.
    assert (Hf : filter (fun k => negb (od_mem k (od_set k' v' d))) (map fst o)
                 = filter (fun k => negb (od_mem k d)) (map fst o)).
    { apply filter_ext_in. intros k Hk. rewrite od_mem_od_set.
      destruct (String.eqb_spec k k') as [->|]; [contradiction|reflexivity]. }
    rewrite Hf. cbn [map fst filter].
    destruct (od_mem k' d); simpl; [reflexivity|].
    rewrite <- app_assoc. reflexivity.
Qed.

(** [CSSRule.add_property] stores the stripped value under the stripped
    property name, leaves every other property as it was and keeps the
    selector.  A property that is already there keeps its position; a new
    one is added at the end of the insertion order. *)
Theorem add_property_lookup (r : CSSRule) (prop value k : string) :
  selector (add_property r prop value) = selector r
  /\ od_get k (properties (add_property r prop value))
     = (if String.eqb k (py_strip prop) then Some (py_strip value)
        else od_get k (properties r))
  /\ map fst (properties (add_property r prop value))
     = (if od_mem (py_strip prop) (properties r) then map fst (properties r)
        else app (map fst (properties r)) [py_strip prop]).
Proof.
  unfold add_property. cbn [selector properties].
  split; [reflexivity|]. split; [apply od_get_od_set|apply od_set_keys].
Qed.

(** [CSSRule.merge_with]: for a rule [other] whose properties have distinct
    names (as an [OrderedDict] has), every property of [other] overrides the
    one of [r], the other properties of [r] are kept, and the selector of
    [r] is kept.  The properties of [r] keep their order and the new ones
    follow in the order of [other]. *)
Theorem merge_with_override (r other : CSSRule) (k : string) :
  NoDup (map fst (properties other)) ->
  selector (merge_with r other) = selector r
  /\ od_get k (properties (merge_with r other))
     = match od_get k (properties other) with
       | Some v => Some v
       | None => od_get k (properties r)
       end
  /\ map fst (properties (merge_with r other))
     = app (map fst (properties r))
           (filter (fun k => negb (od_mem k (properties r))) (map fst (properties other))).
Proof.
  intros Ho. unfold merge_with. cbn [selector properties].
  split; [reflexivity|]. split; [apply od_update_get, Ho|apply od_update_keys, Ho].
Qed.

Lemma merge_with_override_witness :
  NoDup (map fst (properties (mkRule "a" [("color", "blue"); ("margin", "0")])))
  /\ od_get "color" (properties (merge_with (mkRule "a" [("color", "red"); ("top", "1px")])
                                 (mkRule "a" [("color", "blue"); ("margin", "0")])))
     = Some "blue".
Proof.
  assert (H : NoDup (map fst (properties (mkRule "a" [("color", "blue"); ("margin", "0")]))))
    by (simpl; repeat constructor; simpl; intuition discriminate).
  split; [exact H|].
  exact (proj1 (proj2 (merge_with_override (mkRule "a" [("color", "red"); ("top", "1px")])
                         (mkRule "a" [("color", "blue"); ("margin", "0")]) "color" H))).
Defined.

(* ------------------------------------------------------------------ *)
(** ** [split_selectors] *)

(** [str.strip] is idempotent. *)
Lemma py_strip_idem (s : string) : py_strip (py_strip s) = py_strip s.
Proof.
  unfold py_strip at 1 2. rewrite lstrip_rstrip. apply rstrip_idem.
Qed.

Lemma flush_ok (cur : list ascii) (res : list string) :
  Forall piece_ok res -> Forall piece_ok (Split.flush cur res).
Proof.
  intros H. unfold Split.flush. destruct cur; [exact H|].
  destruct (is_empty _) eqn:E; [exact H|].
  apply Forall_app. split; [exact H|]. constructor; [|constructor]. split.
  - intro Hc. rewrite Hc in E. discriminate.
  - apply py_strip_idem.
Qed.

Lemma step_ok (prev : option ascii) (c : ascii) (s : Split.st) :
  Forall piece_ok (Split.result s) -> Forall piece_ok (Split.result (Split.step prev c s)).
Proof.
  intros H. unfold Split.step.
  destruct (_ : bool * option ascii) as [ins qc].
  destruct ins; [exact H|].
  repeat match goal with |- context [if ?b then _ else _] => destruct b end;
    cbn [Split.result]; try exact H.
  apply flush_ok, H.
Qed.

Lemma loop_ok (sel : string) (prev : option ascii) (s : Split.st) :
  Forall piece_ok (Split.result s) -> Forall piece_ok (Split.result (Split.loop prev sel s)).
Proof.
  revert prev s. induction sel as [|c r IH]; intros prev s H; [exact H|].
  apply IH, step_ok, H.
Qed.

(** Every selector returned by [split_selectors] is non-empty and already
    stripped of surrounding whitespace. *)
Theorem split_selectors_pieces_stripped (selector : string) :
  Forall (fun p => p <> "" /\ py_strip p = p) (split_selectors selector).
Proof.
  apply flush_ok, loop_ok. constructor.
Qed.

Lemma step_no_comma (prev : option ascii) (c : ascii) (s : Split.st) :
  ascii_eqb ","%char c = false ->
  Split.result (Split.step prev c s) = Split.result s
  /\ Split.current (Split.step prev c s) = c :: Split.current s.
Proof.
  intros Hc. unfold Split.step.
  destruct (_ : bool * option ascii) as [ins qc].
  assert (Hc' : ascii_eqb c ","%char = false)
    by (unfold ascii_eqb in *; rewrite Ascii.eqb_sym; exact Hc).
  rewrite Hc'. cbn [andb].
  destruct ins; [split; reflexivity|].
  repeat match goal with |- context [if ?b then _ else _] => destruct b end;
    split; reflexivity.
Qed.

Lemma loop_no_comma (sel : string) (prev : option ascii) (s : Split.st) :
  has_comma sel = false ->
  Split.result (Split.loop prev sel s) = Split.result s
  /\ Split.current (Split.loop prev sel s)
     = app (rev (list_ascii_of_string sel)) (Split.current s).
Proof.
  revert prev s. induction sel as [|c r IH]; intros prev s H; [split; reflexivity|].
  simpl in H. apply orb_false_iff in H as [Hc Hr].
  cbn [Split.loop]. destruct (step_no_comma prev c s Hc) as [E1 E2].
  destruct (IH (Some c) (Split.step prev c s) Hr) as [F1 F2].
  split; [congruence|]. rewrite F2, E2. simpl. rewrite <- app_assoc. reflexivity.
Qed.

(** A selector text without any comma is never split: [split_selectors]
    returns it stripped, as its only selector, or nothing when it is
    blank. *)
Theorem split_selectors_no_comma (selector : string) :
  has_comma selector = false ->
  split_selectors selector
  = if is_empty (py_strip selector) then [] else [py_strip selector].
Proof.
  intros H. unfold split_selectors.
  destruct (loop_no_comma selector None (Split.mk [] [] 0 false None) H) as [E1 E2].
  rewrite E1, E2. cbn [Split.result Split.current]. rewrite app_nil_r.
  unfold Split.flush.
  destruct selector as [|c r]; [reflexivity|].
  destruct (rev (list_ascii_of_string (String c r))) eqn:Er.
  - apply (f_equal (@length ascii)) in Er. rewrite length_rev in Er. discriminate.
  - rewrite <- Er, rev_involutive, string_of_list_ascii_of_string. reflexivity.
Qed.

Lemma split_selectors_no_comma_witness :
  has_comma "  a:not(.b)  " = false
  /\ split_selectors "  a:not(.b)  " = [ "a:not(.b)" ].
Proof.
  assert (H : has_comma "  a:not(.b)  " = false) by reflexivity.
  split; [exact H|].
  rewrite (split_selectors_no_comma "  a:not(.b)  " H). reflexivity.
Defined.

(* ------------------------------------------------------------------ *)
(** ** The final clean-up of the text *)

Lemma no_triple_no_run3 (s : string) (k : nat) :
  (k <= 2)%nat ->
  contains (nl ++ nl ++ nl) s = false ->
  ((1 <= k)%nat -> String.prefix (nl ++ nl) s = false) ->
  ((2 <= k)%nat -> String.prefix nl s = false) ->
  no_run3_from k s = true.
Proof.
  change (nl ++ nl ++ nl) with (String nlc (nl ++ nl)).
  change (nl ++ nl) with (String nlc nl).
  revert k. induction s as [|c r IH]; intros k Hk H1 H2 H3; [reflexivity|].
  cbn [no_run3_from]. rewrite contains_cons in H1.
  apply orb_false_iff in H1 as [Hp Hr].
  destruct (ascii_eqb c nlc) eqn:Ec.
  - apply Ascii.eqb_eq in Ec. subst c.
    rewrite prefix_cons, Ascii.eqb_refl in Hp. cbn [andb] in Hp.
    assert (Hk2 : (k < 2)%nat).
    { destruct (Nat.lt_ge_cases k 2) as [|Hge]; [assumption|].
      specialize (H3 Hge). unfold nl in H3. rewrite prefix_cons, Ascii.eqb_refl in H3.
      destruct r; discriminate. }
    apply Nat.ltb_lt in Hk2. rewrite Hk2. cbn [andb].
    apply IH; [apply Nat.ltb_lt in Hk2; lia|exact Hr|intros _; exact Hp|].
    intros Hge. destruct (String.prefix nl r) eqn:E; [|reflexivity].
    exfalso. assert (Hk1 : (1 <= k)%nat) by lia. specialize (H2 Hk1).
    rewrite prefix_cons, Ascii.eqb_refl in H2. cbn [andb] in H2. congruence.
  - apply IH; [lia|exact Hr|intros; lia|intros; lia].
Qed.

Lemma collapse_nl_id (s : string) (k : nat) :
  no_run3_from k s = true -> (k <= 2)%nat ->
  collapse_nl k s = String.concat "" (repeat nl k) ++ s.
Proof.
  revert k. induction s as [|c r IH]; intros k H Hk.
  - rewrite collapse_nl_nil. unfold nl_flush.
    destruct k as [|[|[|k]]]; [reflexivity|reflexivity|reflexivity|lia].
  - rewrite collapse_nl_cons. cbn [no_run3_from] in H.
    destruct (ascii_eqb c nlc) eqn:Ec.
    + apply Ascii.eqb_eq in Ec. subst c.
      apply andb_true_iff in H as [Hk2 H]. apply Nat.ltb_lt in Hk2.
      rewrite IH by (assumption || lia).
      destruct k as [|[|k]]; [reflexivity|reflexivity|lia].
    + rewrite IH by (assumption || lia).
      unfold nl_flush. destruct k as [|[|[|k]]]; try lia; reflexivity.
Qed.

(** The last step of [generate_output] ([re.sub(r'\n{3,}', '\n\n', ...)],
    then a final newline if missing) leaves a text unchanged exactly when
    it has no run of three newlines and ends with a newline; so applying
    it twice is the same as applying it once. *)
Theorem finalize_fixpoint (s : string) :
  (finalize s = s <-> contains (nl ++ nl ++ nl) s = false /\ endswith s nl = true)
  /\ finalize (finalize s) = finalize s.
Proof.
  assert (Hiff : forall t, finalize t = t <->
                 contains (nl ++ nl ++ nl) t = false /\ endswith t nl = true).
  { intros t. split.
    - intros E. rewrite <- E. apply finalize_ok.
    - intros [H1 H2]. unfold finalize.
      rewrite (collapse_nl_id t 0) by
        first [lia | apply no_triple_no_run3; (assumption || lia)].
      cbn [repeat String.concat String.append]. now rewrite H2. }
  split; [apply Hiff|]. apply Hiff, finalize_ok.
Qed.

Lemma collapse_nl_two (s : string) (n : nat) :
  (2 <= n)%nat -> String.prefix (nl ++ nl) (collapse_nl n s) = true.
Proof.
  revert n. induction s as [|c r IH]; intros n Hn.
  - rewrite collapse_nl_nil. unfold nl_flush.
    destruct n as [|[|[|n]]]; try lia; reflexivity.
  - rewrite collapse_nl_cons. destruct (ascii_eqb c nlc).
    + apply IH. lia.
    + unfold nl_flush. destruct n as [|[|[|n]]]; try lia; reflexivity.
Qed.

Lemma prefix_nl2 (u : string) :
  String.prefix (nl ++ nl) u = true -> exists t, u = nl ++ nl ++ t.
Proof.
  change (nl ++ nl) with (String nlc (String nlc "")).
  destruct u as [|a [|b t]]; intros H; [discriminate| |].
  - rewrite prefix_cons in H. apply andb_true_iff in H as [_ H]. discriminate.
  - rewrite !prefix_cons in H. apply andb_true_iff in H as [Ha H].
    apply andb_true_iff in H as [Hb _].
    apply Ascii.eqb_eq in Ha, Hb. subst a b. exists t. reflexivity.
Qed.

Lemma prefix_app_r (p s t : string) :
  String.prefix p s = true -> String.prefix p (s ++ t) = true.
Proof.
  revert s. induction p as [|a p IH]; intros s H; [destruct (s ++ t); reflexivity|].
  destruct s as [|b s]; [discriminate|]. cbn [String.append].
  rewrite prefix_cons in H |- *. apply andb_true_iff in H as [Hab H].
  rewrite Hab. apply IH, H.
Qed.

Lemma prefix_app_same (x p s : string) :
  String.prefix p s = true -> String.prefix (x ++ p) (x ++ s) = true.
Proof.
  induction x as [|a x IH]; intros H; [exact H|]. cbn [String.append].
  rewrite prefix_cons, Ascii.eqb_refl. apply IH, H.
Qed.

(** Whatever the compiler state, the generated text starts with the
    three-line banner of [generate_output]. *)
Theorem generate_output_starts_with_header (c : compiler) :
  startswith (generate_output c) header = true.
Proof.
  unfold generate_output, finalize, startswith.
  set (rest := at_rules_section (at_rules c) ++ _).
  assert (E : exists t, collapse_nl 0 (header ++ rest) = header ++ t).
  { set (h := "/* ================================================== */" ++ nl ++
              "/* CSS COMPILÉ AVEC PARSEUR ROBUSTE */" ++ nl ++
              "/* ================================================== */").
    assert (Hh : header = h ++ nl2) by reflexivity.
    assert (Hc : collapse_nl 0 (h ++ nl2 ++ rest) = h ++ collapse_nl 2 rest) by reflexivity.
    destruct (prefix_nl2 _ (collapse_nl_two rest 2 ltac:(lia))) as [t Et].
    exists t. rewrite Hh, string_app_assoc, Hc, Et. reflexivity. }
  destruct E as [t Et]. rewrite Et.
  destruct (endswith (header ++ t) nl).
  - rewrite <- (string_app_nil header) at 1. apply prefix_app_same. destruct t; reflexivity.
  - rewrite <- (string_app_nil header) at 1. rewrite string_app_assoc.
    apply prefix_app_same. destruct (t ++ nl); reflexivity.
Qed.

(* ------------------------------------------------------------------ *)
(** ** [sort_rules] in unsafe mode *)

(** With alphabetical ordering and safe mode off, [sort_rules] orders
    every scope of a processed stylesheet (the top-level scope and each
    media scope) by lowercased selector ([str_lower] is Python's
    [str.lower]; any lowering function gives the result), without adding
    or losing a rule; the media conditions keep their order. *)
Theorem unsafe_sort_orders_every_scope (str_lower : string -> string)
    (P : parser) (ns : list node) :
  let c := process_stylesheet P ns init in
  let c' := sort_rules str_lower false c in
  Forall2 (fun d d' => Sorted (lower_le str_lower) (map fst d') /\ Permutation d' d)
          (rules c :: map snd (media_queries c))
          (rules c' :: map snd (media_queries c'))
  /\ map fst (media_queries c') = map fst (media_queries c).
Proof.
  intros c c'.
  assert (Hok : forall d : scope, NoDup (map fst d) ->
                Sorted (lower_le str_lower) (map fst (sort_scope_unsafe str_lower d))
                /\ Permutation (sort_scope_unsafe str_lower d) d).
  { intros d Hd. unfold sort_scope_unsafe.
    rewrite od_of_nodup.
    - split; [apply sort_by_lower_sorted|apply sort_by_lower_perm].
    - apply (Permutation_NoDup (l := map fst d)); [|exact Hd].
      apply Permutation_map. symmetry. apply sort_by_lower_perm. }
  destruct (process_stylesheet_nodup P ns init
              (conj (NoDup_nil _) (Forall_nil _))) as [Hr Hm].
  fold c in Hr, Hm.
  unfold c', sort_rules. cbn [rules media_queries]. split.
  - constructor; [apply Hok, Hr|].
    induction Hm as [|[k d] mq Hd _ IH]; simpl; constructor; [apply Hok, Hd|exact IH].
  - rewrite map_map. reflexivity.
Qed.

(* ------------------------------------------------------------------ *)
(** ** Deduplication of the at-rules in [generate_output] *)

Lemma find_app {A : Type} (f : A -> bool) (x y : list A) :
  find f (app x y) = match find f x with Some v => Some v | None => find f y end.
Proof.
  induction x as [|a x IH]; simpl; [reflexivity|]. destruct (f a); [reflexivity|exact IH].
Qed.

Lemma find_has_key_none (n : string) (l : list at_entry) :
  ~ In n (keys_of l) -> find (has_key n) l = None.
Proof.
  intros Hn. destruct (find (has_key n) l) as [b|] eqn:E; [|reflexivity].
  exfalso. apply Hn. apply in_keys_of. exists b.
  apply find_some in E as [Hb Hk]. split; [exact Hb|]. apply has_key_spec, Hk.
Qed.

Lemma nth_error_list_set {A : Type} (i j : nat) (a : A) (l : list A) :
  nth_error (list_set i a l) j
  = if Nat.eqb i j then match nth_error l j with Some _ => Some a | None => None end
    else nth_error l j.
Proof.
  revert i j. induction l as [|y l IH]; intros i j.
  - destruct i, j; simpl; try destruct (Nat.eqb _ _); reflexivity.
  - destruct i as [|i], j as [|j]; simpl; try reflexivity. apply IH.
Qed.

Lemma keys_of_list_set (i : nat) (a b : at_entry) (l : list at_entry) :
  nth_error l i = Some b -> dedup_key a = dedup_key b ->
  keys_of (list_set i a l) = keys_of l.
Proof.
  revert i. induction l as [|y l IH]; intros i Hb Hab; [destruct i; discriminate|].
  destruct i as [|i]; simpl in Hb |- *.
  - injection Hb as ->. unfold keys_of. simpl. rewrite Hab. reflexivity.
  - change (keys_of (y :: list_set i a l)) with (app (keys_of [y]) (keys_of (list_set i a l))).
    rewrite (IH i Hb Hab). reflexivity.
Qed.

Lemma filter_list_set {A : Type} (f : A -> bool) (i : nat) (a b : A) (l : list A) :
  nth_error l i = Some b -> f a = false -> f b = false ->
  filter f (list_set i a l) = filter f l.
Proof.
  revert i. induction l as [|y l IH]; intros i Hb Ha Hb'; [destruct i; discriminate|].
  destruct i as [|i]; simpl in Hb |- *.
  - injection Hb as ->. rewrite Ha, Hb'. reflexivity.
  - rewrite (IH i Hb Ha Hb'). reflexivity.
Qed.

Lemma find_list_set_other {A : Type} (f : A -> bool) (i : nat) (a b : A) (l : list A) :
  nth_error l i = Some b -> f a = false -> f b = false ->
  find f (list_set i a l) = find f l.
Proof.
  revert i. induction l as [|y l IH]; intros i Hb Ha Hb'; [destruct i; discriminate|].
  destruct i as [|i]; simpl in Hb |- *.
  - injection Hb as ->. rewrite Ha, Hb'. reflexivity.
  - rewrite (IH i Hb Ha Hb'). reflexivity.
Qed.

Lemma find_list_set_unique (n : string) (i : nat) (a b : at_entry) (l : list at_entry) :
  NoDup (keys_of l) -> nth_error l i = Some b ->
  dedup_key b = Some n -> dedup_key a = Some n ->
  find (has_key n) (list_set i a l) = Some a.
Proof.
  revert i. induction l as [|y l IH]; intros i Hnd Hb Hbn Han; [destruct i; discriminate|].
  destruct i as [|i]; simpl in Hb |- *.
  - assert (Ha : has_key n a = true) by (apply has_key_spec, Han). rewrite Ha. reflexivity.
  - replace (keys_of (y :: l)) with (app (keys_of [y]) (keys_of l)) in Hnd
      by (rewrite <- keys_of_app; reflexivity).
    assert (Hin : In n (keys_of l)).
    { apply in_keys_of. exists b. split; [apply nth_error_In with i; exact Hb|exact Hbn]. }
    assert (Hy : has_key n y = false).
    { destruct (has_key n y) eqn:E; [|reflexivity].
      apply has_key_spec in E. rewrite keys_of_single, E in Hnd.
      inversion Hnd as [|? ? Hn _]. contradiction. }
    rewrite Hy. apply (IH i); [|exact Hb|exact Hbn|exact Han].
    rewrite keys_of_single in Hnd. destruct (dedup_key y); [inversion Hnd; assumption|exact Hnd].
Qed.

Lemma dedup_inv_step (seen : list (string * nat)) (out done : list at_entry) (a : at_entry) :
  dedup_inv seen out done ->
  dedup_inv (fst (dedup_step (seen, out) a)) (snd (dedup_step (seen, out) a)) (app done [a]).
Proof.
  intros (H1 & H2 & H3 & H4 & H5). rewrite dedup_step_key.
  assert (Hfind_other : forall n, has_key n a = false ->
            find (has_key n) (app out [a]) = find (has_key n) (rev (app done [a]))).
  { intros n Hn. rewrite find_app, rev_app_distr. cbn [rev app find]. rewrite Hn, H4.
    destruct (find (has_key n) (rev done)); reflexivity. }
  assert (Hnth : forall i b, nth_error out i = Some b -> nth_error (app out [a]) i = Some b).
  { intros i b Hb. rewrite nth_error_app1; [exact Hb|].
    apply nth_error_Some. congruence. }
  destruct (dedup_key a) as [n|] eqn:Ea.
  - assert (Han : has_key n a = true) by (apply has_key_spec, Ea).
    assert (Hoth : forall m, m <> n -> has_key m a = false).
    { intros m Hm. destruct (has_key m a) eqn:E; [|reflexivity].
      apply has_key_spec in E. congruence. }
    assert (Hua : unkeyed a = false) by (unfold unkeyed; rewrite Ea; reflexivity).
    destruct (od_get n seen) as [idx|] eqn:Eg; cbn [fst snd].
    + destruct (H3 n idx Eg) as [b [Hb Hbn]].
      assert (Hk : keys_of (list_set idx a out) = keys_of out)
        by (apply (keys_of_list_set idx a b); [exact Hb|congruence]).
      split; [|split; [|split; [|split]]].
      * rewrite Hk. exact H1.
      * intros m. rewrite Hk. apply H2.
      * intros m i Hm. rewrite nth_error_list_set.
        destruct (H3 m i Hm) as [b' [Hb' Hb'm]].
        destruct (Nat.eqb_spec idx i) as [<-|Hi].
        -- rewrite Hb'. exists a. split; [reflexivity|].
           rewrite Hb in Hb'. injection Hb' as <-. congruence.
        -- exists b'. split; assumption.
      * intros m. rewrite rev_app_distr. cbn [rev app find].
        destruct (String.eqb_spec m n) as [->|Hm].
        -- rewrite Han. apply (find_list_set_unique n idx a b); assumption.
        -- rewrite (Hoth m Hm), <- H4. apply (find_list_set_other _ idx a b); [exact Hb|apply Hoth, Hm|].
           destruct (has_key m b) eqn:E; [|reflexivity].
           apply has_key_spec in E. congruence.
      * rewrite filter_app. cbn [filter]. rewrite Hua, app_nil_r, <- H5.
        apply (filter_list_set _ idx a b); [exact Hb|exact Hua|].
        unfold unkeyed. rewrite Hbn. reflexivity.
    + assert (Hn : ~ In n (keys_of out)) by (apply H2, Eg).
      assert (Hk : keys_of (app out [a]) = app (keys_of out) [n])
        by (rewrite keys_of_app, keys_of_single, Ea; reflexivity).
      split; [|split; [|split; [|split]]].
      * rewrite Hk. apply NoDup_app; [exact H1|repeat constructor; intros []|].
        intros m Hm [<-|[]]. contradiction.
      * intros m. rewrite od_get_od_set, Hk, in_app_iff.
        destruct (String.eqb_spec m n) as [->|Hm].
        -- split; [discriminate|]. intros H. exfalso. apply H. right. left. reflexivity.
        -- rewrite H2. simpl. split; [intros H [Hin|[Heq|[]]]; [contradiction|congruence]|].
           intros H Hin. apply H. left. exact Hin.
      * intros m i Hm. rewrite od_get_od_set in Hm.
        destruct (String.eqb_spec m n) as [->|Hmn].
        -- injection Hm as <-. exists a. split; [|exact Ea].
           rewrite nth_error_app2, Nat.sub_diag; reflexivity.
        -- destruct (H3 m i Hm) as [b [Hb Hbm]]. exists b. split; [apply Hnth, Hb|exact Hbm].
      * intros m. destruct (String.eqb_spec m n) as [->|Hm]; [|apply Hfind_other, Hoth, Hm].
        rewrite find_app, (find_has_key_none n out Hn), rev_app_distr.
        cbn [rev app find]. rewrite Han. reflexivity.
      * rewrite !filter_app, H5. reflexivity.
  - assert (Hna : forall m, has_key m a = false)
      by (intros m; unfold has_key; rewrite Ea; reflexivity).
    assert (Hk : keys_of (app out [a]) = keys_of out)
      by (rewrite keys_of_app, keys_of_single, Ea, app_nil_r; reflexivity).
    cbn [fst snd]. split; [|split; [|split; [|split]]].
    + rewrite Hk. exact H1.
    + intros m. rewrite Hk. apply H2.
    + intros m i Hm. destruct (H3 m i Hm) as [b [Hb Hbm]].
      exists b. split; [apply Hnth, Hb|exact Hbm].
    + intros m. apply Hfind_other, Hna.
    + rewrite !filter_app, H5. reflexivity.
Qed.

Lemma dedup_inv_fold (l : list at_entry) :
  forall seen out done, dedup_inv seen out done ->
  dedup_inv (fst (fold_left dedup_step l (seen, out)))
            (snd (fold_left dedup_step l (seen, out))) (app done l).
Proof.
  induction l as [|a l IH]; intros seen out done H.
  - rewrite app_nil_r. exact H.
  - cbn [fold_left]. rewrite (surjective_pairing (dedup_step (seen, out) a)).
    replace (app done (a :: l)) with (app (app done [a]) l) by (rewrite <- app_assoc; reflexivity).
    apply IH, dedup_inv_step, H.
Qed.

Lemma dedup_inv_all (l : list at_entry) :
  exists seen, dedup_inv seen (dedup_at_rules l) l.
Proof.
  unfold dedup_at_rules. exists (fst (fold_left dedup_step l ([], []))).
  apply (dedup_inv_fold l [] [] []).
  split; [constructor|]. split; [|split; [|split]].
  - intros n. split; [intros _ []|reflexivity].
  - intros n i H. discriminate.
  - reflexivity.
  - reflexivity.
Qed.

(** The at-rule list written by [generate_output]: it holds at most one
    [@keyframes] entry per name (the [name] key, or else the name read
    from its content), and the one it holds for a name is the last
    entry given with that name.  Every other entry (an at-rule that is
    not [@keyframes], or a keyframes entry without a name) is kept, in
    its order. *)
Theorem dedup_at_rules_last_wins (l : list at_entry) :
  NoDup (keys_of (dedup_at_rules l))
  /\ (forall n, find (has_key n) (dedup_at_rules l) = find (has_key n) (rev l))
  /\ filter unkeyed (dedup_at_rules l) = filter unkeyed l.
Proof.
  destruct (dedup_inv_all l) as [seen (H1 & _ & _ & H4 & H5)].
  split; [exact H1|]. split; [exact H4|exact H5].
Qed.

Lemma dedup_fold_distinct (l : list at_entry) :
  forall seen out,
  (forall n, od_get n seen = None <-> ~ In n (keys_of out)) ->
  NoDup (keys_of (app out l)) ->
  snd (fold_left dedup_step l (seen, out)) = app out l.
Proof.
  induction l as [|a l IH]; intros seen out Hs Hnd.
  - rewrite app_nil_r. reflexivity.
  - cbn [fold_left]. rewrite dedup_step_key.
    replace (app out (a :: l)) with (app (app out [a]) l) in * by (rewrite <- app_assoc; reflexivity).
    destruct (dedup_key a) as [n|] eqn:Ea.
    + assert (Hn : ~ In n (keys_of out)).
      { intros Hin. rewrite !keys_of_app, keys_of_single, Ea in Hnd.
        rewrite <- app_assoc in Hnd. apply NoDup_remove_2 in Hnd.
        apply Hnd. apply in_app_iff. left. exact Hin. }
      assert (Hg : od_get n seen = None) by (apply Hs, Hn). rewrite Hg.
      apply IH; [|exact Hnd].
      intros m. rewrite od_get_od_set, keys_of_app, keys_of_single, Ea, in_app_iff.
      destruct (String.eqb_spec m n) as [->|Hm].
      * split; [discriminate|]. intros H. exfalso. apply H. right. left. reflexivity.
      * rewrite Hs. simpl. split; [intros H [Hin|[Heq|[]]]; [contradiction|congruence]|].
        intros H Hin. apply H. left. exact Hin.
    + apply IH; [|exact Hnd].
      intros m. rewrite keys_of_app, keys_of_single, Ea, app_nil_r. apply Hs.
Qed.

(** Deduplicating the at-rules a second time changes nothing. *)
Theorem dedup_at_rules_idempotent (l : list at_entry) :
  dedup_at_rules (dedup_at_rules l) = dedup_at_rules l.
Proof.
  destruct (dedup_inv_all l) as [seen (H1 & _)].
  unfold dedup_at_rules at 1. apply (dedup_fold_distinct _ [] []); [|exact H1].
  intros n. split; [intros _ []|reflexivity].
Qed.

(* ------------------------------------------------------------------ *)
(** ** Merging of the media queries *)

Lemma merge_step_get (merged : list (string * scope)) (cr : string * scope) (k : string) :
  od_get k (merge_step merged cr)
  = if String.eqb k (normalize_condition (fst cr))
    then Some (fold_left merge_rule_into (snd cr)
                 (match od_get k merged with Some m => m | None => [] end))
    else od_get k merged.
Proof.
  unfold merge_step. rewrite od_get_od_set.
  destruct (String.eqb_spec k (normalize_condition (fst cr))) as [->|Hk].
  - f_equal. f_equal. unfold od_mem.
    destruct (od_get (normalize_condition (fst cr)) merged) eqn:E; [rewrite E; reflexivity|].
    rewrite od_get_od_set, String.eqb_refl. reflexivity.
  - unfold od_mem. destruct (od_get (normalize_condition (fst cr)) merged); [reflexivity|].
    rewrite od_get_od_set. apply String.eqb_neq in Hk. rewrite Hk. reflexivity.
Qed.

Lemma merge_fold_get (l : list (string * scope)) (acc : list (string * scope)) (k : string) :
  od_get k (fold_left merge_step l acc)
  = match od_get k acc with
    | Some m => Some (merge_scopes_from m (filter (cond_is k) l))
    | None => if existsb (cond_is k) l
              then Some (merge_scopes_from [] (filter (cond_is k) l)) else None
    end.
Proof.
  revert acc. induction l as [|cr l IH]; intros acc.
  - simpl. destruct (od_get k acc); reflexivity.
  - cbn [fold_left]. rewrite IH, merge_step_get. cbn [filter existsb].
    change (cond_is k cr) with (String.eqb (normalize_condition (fst cr)) k).
    rewrite (String.eqb_sym (normalize_condition (fst cr)) k).
    destruct (String.eqb k (normalize_condition (fst cr))); cbn [orb].
    + destruct (od_get k acc); reflexivity.
    + reflexivity.
Qed.

Lemma merge_step_keys (merged : list (string * scope)) (cr : string * scope) :
  map fst (merge_step merged cr)
  = if od_mem (normalize_condition (fst cr)) merged then map fst merged
    else app (map fst merged) [normalize_condition (fst cr)].
Proof.
  unfold merge_step. set (n := normalize_condition (fst cr)).
  destruct (od_mem n merged) eqn:E.
  - rewrite od_set_keys, E. reflexivity.
  - rewrite od_set_keys, od_mem_od_set, String.eqb_refl. cbn [orb].
    rewrite od_set_keys, E. reflexivity.
Qed.

Lemma merge_fold_keys (l acc : list (string * scope)) :
  NoDup (map fst acc) ->
  NoDup (map fst (fold_left merge_step l acc))
  /\ (forall k, In k (map fst (fold_left merge_step l acc))
                <-> In k (map fst acc) \/ In k (map (fun cr => normalize_condition (fst cr)) l)).
Proof.
  revert acc. induction l as [|cr l IH]; intros acc Hacc.
  - simpl. split; [exact Hacc|tauto].
  - cbn [fold_left map]. destruct (IH (merge_step acc cr)) as [H1 H2].
    + rewrite merge_step_keys. destruct (od_mem _ acc) eqn:E; [exact Hacc|].
      apply NoDup_app; [exact Hacc|repeat constructor; intros []|].
      intros k Hk [Heq|[]]. subst k. apply In_map_fst_od_get in Hk.
      unfold od_mem in E. destruct (od_get _ acc); [discriminate|congruence].
    + split; [exact H1|]. intros k. rewrite H2, merge_step_keys.
      destruct (od_mem (normalize_condition (fst cr)) acc) eqn:E.
      * split; [intros [H|H]; [left; exact H|right; right; exact H]|].
        intros [H|[H|H]]; [left; exact H| |right; exact H].
        left. subst k. unfold od_mem in E.
        destruct (od_get (normalize_condition (fst cr)) acc) eqn:G; [|discriminate].
        apply In_map_fst_od_get. congruence.
      * rewrite in_app_iff. simpl. intuition.
Qed.

(** [generate_output] merges the media queries by normalised condition:
    the merged list has one entry per distinct normalised condition, and
    the scope stored for a condition [k] is obtained by merging, in
    order, every media scope whose condition normalises to [k] (a later
    rule for a selector overrides the properties of an earlier one). *)
Theorem merge_queries_by_condition (mq : list (string * scope)) (k : string) :
  NoDup (map fst (merge_queries mq))
  /\ (In k (map fst (merge_queries mq))
      <-> In k (map (fun cr => normalize_condition (fst cr)) mq))
  /\ od_get k (merge_queries mq)
     = if existsb (cond_is k) mq then Some (merge_scopes_from [] (filter (cond_is k) mq))
       else None.
Proof.
  destruct (merge_fold_keys mq [] (NoDup_nil _)) as [H1 H2].
  split; [exact H1|]. split.
  - unfold merge_queries. rewrite H2. simpl. tauto.
  - unfold merge_queries. rewrite merge_fold_get. reflexivity.
Qed.

Lemma layout_filters (l : list (string * scope)) :
  let f g := filter (fun cr => category_eqb (classify (fst cr)) g) l in
  Permutation (app (f CDesktop) (app (f CMobile) (app (f COther) (app (f CPref) (f CPrint)))))
              (filter (fun cr => negb (category_eqb (classify (fst cr)) CTablet)) l).
Proof.
  intros f. unfold f. clear f.
  induction l as [|x l IH]; [constructor|]. cbn [filter].
  destruct (classify (fst x)); cbn [category_eqb negb app]; [apply perm_skip, IH|exact IH| | | |];
    symmetry; rewrite ?app_assoc; apply Permutation_cons_app;
    rewrite <- ?app_assoc; symmetry; exact IH.
Qed.

Lemma group_of_filter (g : category) (merged : list (string * scope)) :
  NoDup (map fst merged) ->
  group_of g merged = filter (fun cr => category_eqb (classify (fst cr)) g) merged.
Proof.
  intros H. unfold group_of. apply od_of_nodup.
  rewrite (map_fst_filter (fun k => category_eqb (classify k) g)).
  apply NoDup_filter, H.
Qed.

(** Each block of the merged media queries is emitted exactly once, in
    one of the desktop, mobile, other, preference and print sections,
    except the blocks whose condition falls in the tablet range, which
    are emitted in none. *)
Theorem media_blocks_emitted_once (mq : list (string * scope)) :
  Permutation (flat_map snd (media_layout (merge_queries mq)))
              (filter (fun cr => negb (category_eqb (classify (fst cr)) CTablet))
                      (merge_queries mq)).
Proof.
  destruct (merge_fold_keys mq [] (NoDup_nil _)) as [Hnd _].
  fold (merge_queries mq) in Hnd.
  unfold media_layout. cbn [flat_map snd]. rewrite app_nil_r.
  rewrite !group_of_filter by exact Hnd.
  etransitivity; [|apply layout_filters].
  unfold sort_group.
  repeat apply Permutation_app; try apply sort_by_perm; reflexivity.
Qed.

(* ------------------------------------------------------------------ *)
(** ** The rules stored by the processing functions *)

Lemma od_set_not_nil {V : Type} (k : string) (v : V) (d : list (string * V)) :
  od_set k v d <> [].
Proof. destruct d as [|[k' v'] d]; simpl; [discriminate|]. destruct (String.eqb k k'); discriminate. Qed.

Lemma od_set_od_set {V : Type} (k : string) (v w : V) (d : list (string * V)) :
  od_set k v (od_set k w d) = od_set k v d.
Proof.
  induction d as [|[k' v'] d IH]; simpl.
  - rewrite String.eqb_refl. reflexivity.
  - destruct (String.eqb_spec k k') as [->|Hk]; simpl.
    + rewrite String.eqb_refl. reflexivity.
    + apply String.eqb_neq in Hk. rewrite Hk, IH. reflexivity.
Qed.

Lemma od_set_forall_kv {V : Type} (R : string * V -> Prop) (k : string) (v : V)
    (d : list (string * V)) :
  Forall R d -> R (k, v) -> Forall R (od_set k v d).
Proof.
  intros H Hv. induction H as [|[k' v'] d Hx Ht IH]; simpl.
  - constructor; [exact Hv|constructor].
  - destruct (String.eqb_spec k k') as [<-|]; constructor; auto.
Qed.

Lemma od_get_forall_kv {V : Type} (R : string * V -> Prop) (k : string) (v : V)
    (d : list (string * V)) :
  Forall R d -> od_get k d = Some v -> R (k, v).
Proof.
  induction 1 as [|[k' v'] d Hx _ IH]; simpl; [discriminate|].
  destruct (String.eqb_spec k k') as [<-|]; [intros E; injection E as <-; exact Hx|exact IH].
Qed.

Lemma add_props_rule (props : list (string * string)) (r : CSSRule) (s : stats) :
  selector (fst (add_props props r s)) = selector r
  /\ (props <> [] \/ properties r <> [] -> properties (fst (add_props props r s)) <> []).
Proof.
  unfold add_props. change r with (fst (r, s)) at 2 3. generalize (r, s) as acc.
  induction props as [|pv props IH]; intros acc; simpl.
  - split; [reflexivity|]. intros [H|H]; [congruence|exact H].
  - destruct (IH (add_property (fst acc) (fst pv) (snd pv),
                  bump_properties_merged (snd acc))) as [IH1 IH2].
    split; [exact IH1|]. intros _. apply IH2. right. apply od_set_not_nil.
Qed.

Lemma sel_step_ok props (acc : scope * stats) (sel : string) :
  props <> [] -> Forall rule_ok (fst acc) -> Forall rule_ok (fst (sel_step props acc sel)).
Proof.
  destruct acc as [d s]. simpl. intros Hp Hd. unfold sel_step.
  destruct (is_empty (py_strip sel)) eqn:Ee; [exact Hd|].
  set (k := py_strip sel).
  set (d' := if od_mem k d then d else od_set k (new_rule k) d).
  set (r := match od_get k d' with Some r => r | None => new_rule k end).
  assert (Hr : selector r = k).
  { unfold r, d'. destruct (od_mem k d) eqn:Em.
    - destruct (od_get k d) as [r0|] eqn:Eg.
      + exact (proj1 (proj2 (proj2 (od_get_forall_kv rule_ok k r0 d Hd Eg)))).
      + simpl. apply py_strip_idem.
    - rewrite od_get_od_set, String.eqb_refl. simpl. apply py_strip_idem. }
  destruct (add_props_rule props r (bump_selectors_split s)) as [H1 H2].
  destruct (add_props props r (bump_selectors_split s)) as [r' s'] eqn:Ea. cbn [fst] in H1, H2 |- *.
  assert (Hd' : od_set k r' d' = od_set k r' d).
  { unfold d'. destruct (od_mem k d); [reflexivity|apply od_set_od_set]. }
  rewrite Hd'. apply od_set_forall_kv; [exact Hd|].
  unfold rule_ok. cbn [fst snd]. split; [|split; [|split]].
  - intro E. unfold k in E. rewrite E in Ee. discriminate.
  - apply py_strip_idem.
  - rewrite H1. exact Hr.
  - apply H2. left. exact Hp.
Qed.

Lemma add_to_scope_ok props sels (d : scope) (s : stats) :
  props <> [] -> Forall rule_ok d -> Forall rule_ok (fst (add_to_scope props sels d s)).
Proof.
  intros Hp. unfold add_to_scope. change d with (fst (d, s)) at 1. generalize (d, s).
  induction sels as [|sel sels IH]; intros acc Hd; simpl; [exact Hd|].
  apply IH, sel_step_ok; assumption.
Qed.

Lemma process_qualified_rule_ok (P : parser) (p b : string) (mc : option string) (c : compiler) :
  scopes_ok c -> scopes_ok (process_qualified_rule P p b mc c).
Proof.
  intros [Hr Hm]. unfold process_qualified_rule.
  destruct (is_empty (py_strip (serialize_tokens p))); [split; assumption|].
  destruct (parse_declaration_block P b _) as [props s2].
  destruct props as [|pv props]; [split; assumption|].
  assert (Hp : pv :: props <> []) by discriminate.
  cbn [with_stats rules media_queries cstats at_rules].
  destruct (truthy mc) as [cond|].
  - set (mq := if od_mem cond (media_queries c) then media_queries c
               else od_set cond [] (media_queries c)).
    assert (Hmq : Forall (fun cd => Forall rule_ok (snd cd)) mq).
    { unfold mq. destruct (od_mem cond _); [exact Hm|].
      apply (od_set_forall (fun d : scope => Forall rule_ok d)); [exact Hm|constructor]. }
    set (target := match od_get cond mq with Some t => t | None => [] end).
    assert (Ht : Forall rule_ok target).
    { unfold target. destruct (od_get cond mq) eqn:E; [|constructor].
      exact (od_get_forall (fun d : scope => Forall rule_ok d) _ _ _ Hmq E). }
    pose proof (add_to_scope_ok (pv :: props) (split_selectors (py_strip (serialize_tokens p)))
                  target s2 Hp Ht) as Hn.
    destruct (add_to_scope _ _ _ _) as [t' s3]. split; [exact Hr|].
    apply (od_set_forall (fun d : scope => Forall rule_ok d)); [exact Hmq|exact Hn].
  - pose proof (add_to_scope_ok (pv :: props) (split_selectors (py_strip (serialize_tokens p)))
                  (rules c) s2 Hp Hr) as Hn.
    destruct (add_to_scope _ _ _ _) as [t' s3]. split; assumption.
Qed.

Lemma media_body_ok (P : parser) (cond : string) (ns : list node) (c : compiler) :
  scopes_ok c -> scopes_ok (media_body P cond ns c).
Proof.
  unfold media_body. revert c.
  induction ns as [|n ns IH]; intros c Hc; simpl; [exact Hc|].
  apply IH. destruct n; [apply process_qualified_rule_ok|..]; exact Hc.
Qed.

Lemma process_stylesheet_ok (P : parser) (ns : list node) (c : compiler) :
  scopes_ok c -> scopes_ok (process_stylesheet P ns c).
Proof.
  unfold process_stylesheet. revert c.
  induction ns as [|n ns IH]; intros c Hc; simpl; [exact Hc|].
  apply IH. destruct n as [p b|kw p b|m]; simpl.
  - apply process_qualified_rule_ok, Hc.
  - unfold process_at_rule.
    destruct (String.eqb (ascii_lower kw) "media").
    + destruct b as [b|]; [|exact Hc].
      destruct (is_empty b); [exact Hc|].
      apply media_body_ok, Hc.
    + destruct (String.eqb (ascii_lower kw) "keyframes"); exact Hc.
  - exact Hc.
Qed.

(** Every rule stored after a stylesheet has been processed, at top level
    or in a media scope, is stored under a non-empty, stripped selector,
    carries that selector, and has at least one property: rules without
    declarations are never stored. *)
Theorem stored_rules_well_formed (P : parser) (ns : list node) :
  let c := process_stylesheet P ns init in
  Forall (fun kv => fst kv <> "" /\ py_strip (fst kv) = fst kv
                    /\ selector (snd kv) = fst kv /\ properties (snd kv) <> [])
         (rules c)
  /\ Forall (fun cd => Forall (fun kv => fst kv <> "" /\ py_strip (fst kv) = fst kv
                    /\ selector (snd kv) = fst kv /\ properties (snd kv) <> [])
                              (snd cd))
            (media_queries c).
Proof.
  apply process_stylesheet_ok. split; constructor.
Qed.

(* ------------------------------------------------------------------ *)
(** ** Statistics *)

Lemma decl_fold_stats (P : parser) (items : list decl_item)
    (acc : list (string * string) * stats) :
  let s' := snd (fold_left decl_step items acc) in
  parse_errors s' = parse_errors (snd acc) + length (filter is_decl_error items)
  /\ rules_parsed s' = rules_parsed (snd acc)
  /\ selectors_split s' = selectors_split (snd acc)
  /\ properties_merged s' = properties_merged (snd acc)
  /\ at_rules_n s' = at_rules_n (snd acc)
  /\ media_queries_n s' = media_queries_n (snd acc).
Proof.
  revert acc. induction items as [|it items IH]; intros [props s]; simpl.
  - rewrite Nat.add_0_r. repeat split.
  - destruct (IH (decl_step (props, s) it)) as (H1 & H2 & H3 & H4 & H5 & H6).
    destruct it; simpl in *; repeat split; try assumption; lia.
Qed.

(** [parse_declaration_block] counts one parse error per error item of
    the declaration list and changes no other statistic. *)
Theorem parse_declaration_block_counts_errors (P : parser) (content : string) (s : stats) :
  let s' := snd (parse_declaration_block P content s) in
  parse_errors s' = parse_errors s + length (filter is_decl_error (parse_declaration_list P content))
  /\ rules_parsed s' = rules_parsed s
  /\ selectors_split s' = selectors_split s
  /\ properties_merged s' = properties_merged s
  /\ at_rules_n s' = at_rules_n s
  /\ media_queries_n s' = media_queries_n s.
Proof. exact (decl_fold_stats P (parse_declaration_list P content) ([], s)). Qed.

Lemma decl_fold_get_other (name : string) (items : list decl_item)
    (acc : list (string * string) * stats) :
  Forall (fun it => match it with
                    | DDecl d' => ascii_lower (d_name d') <> name
                    | _ => True end) items ->
  od_get name (fst (fold_left decl_step items acc)) = od_get name (fst acc).
Proof.
  intros H. revert acc. induction H as [|it items Hit _ IH]; intros [props s]; [reflexivity|].
  cbn [fold_left]. rewrite IH. destruct it as [d'| |]; simpl; [|reflexivity|reflexivity].
  rewrite od_get_od_set. apply String.eqb_neq in Hit. rewrite String.eqb_sym, Hit. reflexivity.
Qed.

(** In [parse_declaration_block], a later declaration of a property
    overrides an earlier one: the value stored for a property name is
    the one of its last declaration (serialised, stripped, with
    [" !important"] appended when the declaration is important). *)
Theorem parse_declaration_block_last_wins (P : parser) (content : string) (s : stats)
    (xs ys : list decl_item) (d : decl) :
  parse_declaration_list P content = app xs (DDecl d :: ys) ->
  Forall (fun it => match it with
                    | DDecl d' => ascii_lower (d_name d') <> ascii_lower (d_name d)
                    | _ => True end) ys ->
  od_get (ascii_lower (d_name d)) (fst (parse_declaration_block P content s))
  = Some (let v := py_strip (serialize_tokens (d_value d)) in
          if d_important d then v ++ " !important" else v).
Proof.
  intros Hl Hys. unfold parse_declaration_block. rewrite Hl, fold_left_app.
  cbn [fold_left]. rewrite decl_fold_get_other by exact Hys.
  destruct (fold_left decl_step xs ([], s)) as [props s1]. simpl.
  rewrite od_get_od_set, String.eqb_refl. reflexivity.
Qed.

Lemma parse_declaration_block_last_wins_witness :
  let P := mkParser (fun _ => [])
             (fun _ => [DDecl (mkDecl "COLOR" " red " false); DError;
                        DDecl (mkDecl "color" "blue" true); DDecl (mkDecl "margin" "0" false)]) in
  parse_declaration_list P "x"
  = app [DDecl (mkDecl "COLOR" " red " false); DError]
        (DDecl (mkDecl "color" "blue" true) :: [DDecl (mkDecl "margin" "0" false)])
  /\ Forall (fun it => match it with
                       | DDecl d' => ascii_lower (d_name d') <> ascii_lower (d_name (mkDecl "color" "blue" true))
                       | _ => True end) [DDecl (mkDecl "margin" "0" false)]
  /\ od_get "color" (fst (parse_declaration_block P "x" stats0)) = Some "blue !important".
Proof.
  intros P.
  assert (H1 : parse_declaration_list P "x"
               = app [DDecl (mkDecl "COLOR" " red " false); DError]
                     (DDecl (mkDecl "color" "blue" true) :: [DDecl (mkDecl "margin" "0" false)]))
    by reflexivity.
  assert (H2 : Forall (fun it => match it with
                       | DDecl d' => ascii_lower (d_name d') <> ascii_lower (d_name (mkDecl "color" "blue" true))
                       | _ => True end) [DDecl (mkDecl "margin" "0" false)])
    by (repeat constructor; cbv; discriminate).
  split; [exact H1|]. split; [exact H2|].
  exact (parse_declaration_block_last_wins P "x" stats0 _ _ _ H1 H2).
Defined.

Lemma add_props_counts props (r : CSSRule) (s : stats) :
  at_rules_n (snd (add_props props r s)) = at_rules_n s
  /\ media_queries_n (snd (add_props props r s)) = media_queries_n s
  /\ rules_parsed (snd (add_props props r s)) = rules_parsed s.
Proof.
  unfold add_props. change s with (snd (r, s)) at 2 4 6.
  generalize (r, s) as a. induction props as [|pv props IH]; intros a; [repeat split|].
  cbn [fold_left]. destruct (IH (add_property (fst a) (fst pv) (snd pv),
                                 bump_properties_merged (snd a))) as (F1 & F2 & F3).
  rewrite F1, F2, F3. repeat split.
Qed.

Lemma add_to_scope_counts props sels (d : scope) (s : stats) :
  at_rules_n (snd (add_to_scope props sels d s)) = at_rules_n s
  /\ media_queries_n (snd (add_to_scope props sels d s)) = media_queries_n s
  /\ rules_parsed (snd (add_to_scope props sels d s)) = rules_parsed s.
Proof.
  unfold add_to_scope. change s with (snd (d, s)) at 2 4 6. generalize (d, s) as acc.
  induction sels as [|sel sels IH]; intros acc; [repeat split|].
  cbn [fold_left]. destruct (IH (sel_step props acc sel)) as (E1 & E2 & E3).
  rewrite E1, E2, E3. destruct acc as [d0 s0]. unfold sel_step.
  destruct (is_empty (py_strip sel)); [repeat split|].
  match goal with |- context [add_props props ?r ?s1] =>
    destruct (add_props_counts props r s1) as (G1 & G2 & G3); destruct (add_props props r s1) end.
  simpl in *. repeat split; assumption.
Qed.

Lemma qualified_rule_counts (P : parser) (p b : string) (mc : option string) (c : compiler) :
  at_rules_n (cstats (process_qualified_rule P p b mc c)) = at_rules_n (cstats c)
  /\ media_queries_n (cstats (process_qualified_rule P p b mc c)) = media_queries_n (cstats c)
  /\ rules_parsed (cstats (process_qualified_rule P p b mc c)) = S (rules_parsed (cstats c)).
Proof.
  unfold process_qualified_rule.
  destruct (is_empty (py_strip (serialize_tokens p))); [repeat split|].
  destruct (decl_fold_stats P (parse_declaration_list P b)
              ([], bump_rules_parsed (cstats c))) as (_ & D2 & _ & _ & D5 & D6).
  unfold parse_declaration_block. cbn [with_stats cstats].
  destruct (fold_left decl_step _ _) as [props s2]. cbn [snd] in D2, D5, D6.
  destruct props as [|pv props]; [repeat split; assumption|].
  destruct (truthy mc) as [cond|];
    match goal with |- context [add_to_scope ?a ?b ?d ?s] =>
      destruct (add_to_scope_counts a b d s) as (G1 & G2 & G3); destruct (add_to_scope a b d s) end;
    simpl in *; repeat split; congruence.
Qed.

Lemma media_body_counts (P : parser) (cond : string) (chs : list node) (c : compiler) :
  at_rules_n (cstats (media_body P cond chs c)) = at_rules_n (cstats c)
  /\ media_queries_n (cstats (media_body P cond chs c)) = media_queries_n (cstats c)
  /\ rules_parsed (cstats (media_body P cond chs c))
     = rules_parsed (cstats c) + length (filter is_qualified chs).
Proof.
  unfold media_body. revert c. induction chs as [|x chs IH]; intros c.
  - simpl. repeat split; lia.
  - cbn [fold_left filter]. destruct x as [p0 b0| |].
    + destruct (IH (process_qualified_rule P p0 b0 (Some cond) c)) as (F1 & F2 & F3).
      destruct (qualified_rule_counts P p0 b0 (Some cond) c) as (Q1 & Q2 & Q3).
      cbn [is_qualified length]. repeat split; lia.
    + destruct (IH c) as (F1 & F2 & F3). cbn [is_qualified]. repeat split; lia.
    + destruct (IH c) as (F1 & F2 & F3). cbn [is_qualified]. repeat split; lia.
Qed.

(** After a stylesheet has been processed, the [media_queries] counter
    has grown by the number of top-level [@media] rules, and the
    [at_rules] counter by the number of the other top-level at-rules
    (every [@keyframes] is counted, also one that replaces an earlier one
    of the same name).  The [rules_parsed] counter has grown by the
    number of qualified rules met, at top level or directly inside a
    non-empty [@media] block, including the ones that are dropped for
    an empty selector or for having no declaration. *)
Theorem processing_counters (P : parser) (ns : list node) (c : compiler) :
  media_queries_n (cstats (process_stylesheet P ns c))
  = media_queries_n (cstats c) + count_at_rules (fun k => String.eqb k "media") ns
  /\ at_rules_n (cstats (process_stylesheet P ns c))
     = at_rules_n (cstats c) + count_at_rules (fun k => negb (String.eqb k "media")) ns
  /\ rules_parsed (cstats (process_stylesheet P ns c))
     = rules_parsed (cstats c) + qualified_seen P ns.
Proof.
  revert c. induction ns as [|n ns IH]; intros c.
  - unfold process_stylesheet, count_at_rules, qualified_seen.
    cbn [fold_left filter length map fold_right]. repeat split; lia.
  - rewrite process_stylesheet_cons. destruct (IH (process_node P n c)) as (E1 & E2 & E3).
    rewrite E1, E2, E3. clear E1 E2 E3 IH.
    unfold count_at_rules, qualified_seen. destruct n as [p b|kw p b|m];
      cbn [filter length map fold_right]; fold (qualified_seen P ns).
    + destruct (qualified_rule_counts P p b None c) as (Q1 & Q2 & Q3).
      cbn [process_node]. repeat split; lia.
    + unfold process_node, process_at_rule.
      destruct (String.eqb (ascii_lower kw) "media") eqn:Em; cbn [negb length andb].
      * destruct b as [b|]; [destruct (is_empty b)|]; cbn [negb];
          try (destruct (media_body_counts P (py_strip (serialize_tokens p))
                           (parse_stylesheet P (serialize_tokens b))
                           (with_stats c (bump_media_queries (cstats c)))) as (F1 & F2 & F3);
               rewrite F1, F2, F3);
          simpl; repeat split; lia.
      * destruct (String.eqb (ascii_lower kw) "keyframes"); destruct b as [b|];
          simpl; repeat split; lia.
    + simpl. repeat split; lia.
Qed.

(* ------------------------------------------------------------------ *)
(** ** The top-level sections of [generate_output] *)

Lemma od_get_in_nodup {V : Type} (k : string) (v : V) (d : list (string * V)) :
  NoDup (map fst d) -> (od_get k d = Some v <-> In (k, v) d).
Proof.
  induction d as [|[k' v'] d IH]; simpl; intros Hd; [split; [discriminate|intros []]|].
  inversion Hd as [|? ? Hn Hd']; subst.
  destruct (String.eqb_spec k k') as [->|Hk].
  - split; [intros E; injection E as ->; left; reflexivity|].
    intros [E|Hin]; [injection E as ->; reflexivity|].
    exfalso. apply Hn. apply (in_map fst) in Hin. exact Hin.
  - rewrite IH by exact Hd'. split; [intros H; right; exact H|].
    intros [E|H]; [injection E; congruence|exact H].
Qed.

Lemma od_mem_in {V : Type} (k : string) (d : list (string * V)) :
  od_mem k d = true <-> In k (map fst d).
Proof.
  rewrite In_map_fst_od_get. unfold od_mem.
  destruct (od_get k d); split; congruence.
Qed.

Lemma prefix_split (p s : string) : String.prefix p s = true -> exists t, s = p ++ t.
Proof.
  revert s. induction p as [|a p IH]; intros s H; [exists s; reflexivity|].
  destruct s as [|b s]; [discriminate|]. rewrite prefix_cons in H.
  apply andb_true_iff in H as [Hab H]. apply Ascii.eqb_eq in Hab. subst b.
  destruct (IH s H) as [t ->]. exists t. reflexivity.
Qed.

Lemma is_root_not_base (k : string) : is_root k = true -> is_base k = false.
Proof.
  unfold is_root, startswith. intros H. destruct (prefix_split _ _ H) as [t ->].
  reflexivity.
Qed.

Lemma three_way_perm {A : Type} (f g : A -> bool) (l : list A) :
  (forall x, f x = true -> g x = false) ->
  Permutation (app (filter f l) (app (filter g l) (filter (fun x => negb (f x) && negb (g x)) l))) l.
Proof.
  intros Hfg. induction l as [|x l IH]; [constructor|]. cbn [filter].
  destruct (f x) eqn:Ef; [rewrite (Hfg x Ef)|]; destruct (g x) eqn:Eg; cbn [negb andb app].
  - apply perm_skip, IH.
  - apply perm_skip, IH.
  - symmetry. apply Permutation_cons_app. symmetry. exact IH.
  - symmetry. rewrite app_assoc. apply Permutation_cons_app. rewrite <- app_assoc.
    symmetry. exact IH.
Qed.

Lemma main_groups_perm (l : scope) :
  let f g := filter (fun kv => main_group_eqb (main_group_of (fst kv)) g) l in
  Permutation (app (f GHeading) (app (f GElement) (app (f GClass) (app (f GId) (f GPseudo))))) l.
Proof.
  intros f. unfold f. clear f.
  induction l as [|x l IH]; [constructor|]. cbn [filter].
  destruct (main_group_of (fst x)); cbn [main_group_eqb app]; [apply perm_skip, IH| | | |];
    symmetry; rewrite ?app_assoc; apply Permutation_cons_app;
    rewrite <- ?app_assoc; symmetry; exact IH.
Qed.

Lemma base_order_perm (b : scope) :
  NoDup (map fst b) -> Permutation (base_order b) b.
Proof.
  intros Hb. unfold base_order.
  set (fixed := flat_map _ base_selectors).
  transitivity (app (filter (fun kv => existsb (String.eqb (fst kv)) base_selectors) b)
                    (filter (fun kv => negb (existsb (String.eqb (fst kv)) base_selectors)) b));
    [|apply filter_partition_perm].
  apply Permutation_app_tail. apply NoDup_Permutation.
  - unfold fixed, base_selectors. cbn [flat_map].
    destruct (od_get "*" b), (od_get "html" b), (od_get "body" b); cbn [app];
      repeat constructor; cbn [In]; intros H; repeat destruct H as [H|H];
      try discriminate; contradiction.
  - apply NoDup_filter. apply (NoDup_map_inv fst). exact Hb.
  - intros [k r]. rewrite filter_In. unfold fixed. rewrite in_flat_map.
    split.
    + intros [sel [Hsel Hin]]. destruct (od_get sel b) eqn:E; [|destruct Hin].
      destruct Hin as [E'|[]]. injection E' as <- <-.
      split; [apply od_get_in_nodup; assumption|].
      cbn [fst]. apply existsb_exists. exists sel. split; [exact Hsel|apply String.eqb_refl].
    + intros [Hin He]. cbn [fst] in He. apply existsb_exists in He as [sel [Hsel Hk]].
      apply String.eqb_eq in Hk. subst sel. exists k. split; [exact Hsel|].
      rewrite (proj2 (od_get_in_nodup k r b Hb) Hin). left. reflexivity.
Qed.

Lemma main_order_perm (m : scope) :
  NoDup (map fst m) -> Permutation (main_order m) m.
Proof.
  intros Hm. unfold main_order. cbn [flat_map]. rewrite app_nil_r.
  rewrite !od_of_nodup;
    try (rewrite (map_fst_filter (fun k => main_group_eqb (main_group_of k) _));
         apply NoDup_filter, Hm).
  apply main_groups_perm.
Qed.

Lemma concat_empty_cons (x : string) (l : list string) :
  String.concat "" (x :: l) = x ++ String.concat "" l.
Proof. destruct l; simpl; [symmetry; apply string_app_nil|reflexivity]. Qed.

Lemma concat_empty_app (l1 l2 : list string) :
  String.concat "" (app l1 l2) = String.concat "" l1 ++ String.concat "" l2.
Proof.
  induction l1 as [|x l1 IH]; [reflexivity|].
  cbn [app]. rewrite !concat_empty_cons, IH. symmetry. apply string_app_assoc.
Qed.

Lemma sconcat_flat_map {A : Type} (h : A -> string) (gs : list main_group)
    (grp : main_group -> list A) :
  sconcat (map (fun g => sconcat (map h (grp g))) gs) = sconcat (map h (flat_map grp gs)).
Proof.
  unfold sconcat. induction gs as [|g gs IH]; [reflexivity|].
  cbn [flat_map map]. rewrite map_app, concat_empty_cons, concat_empty_app, IH.
  reflexivity.
Qed.


Lemma base_section_order (b : scope) :
  base_section b = match b with
                   | [] => ""
                   | _ => "/* ===== RESET ET BASE ===== */" ++ nl ++
                          sconcat (map emit_rule (base_order b))
                   end.
Proof.
  destruct b as [|x xs]; [reflexivity|]. set (b := x :: xs).
  unfold base_section, base_order. fold b. f_equal. f_equal.
  unfold sconcat. rewrite map_app, concat_empty_app. f_equal.
  unfold base_selectors. cbn [flat_map map].
  destruct (od_get "*" b), (od_get "html" b), (od_get "body" b);
    cbn [app map]; rewrite ?concat_empty_cons; cbn [String.concat];
    rewrite ?string_app_nil; reflexivity.
Qed.

Lemma main_section_order (m : scope) :
  main_section m
  = match m with
    | [] => ""
    | _ => "/* ===== RÈGLES PRINCIPALES ===== */" ++ nl ++
           sconcat (map (fun kv => py_replace empty_comment "" (to_css (snd kv) four) ++ nl2)
                        (main_order m))
    end.
Proof.
  destruct m as [|x xs]; [reflexivity|].
  unfold main_section, main_order. rewrite <- sconcat_flat_map. reflexivity.
Qed.

Lemma od_mem_filter_fst {V : Type} (g : string -> bool) (k : string) (l : list (string * V)) :
  In k (map fst l) -> od_mem k (filter (fun kv => g (fst kv)) l) = g k.
Proof.
  intros Hk. destruct (od_mem k _) eqn:E.
  - apply od_mem_in in E. rewrite map_fst_filter, filter_In in E. symmetry. apply E.
  - destruct (g k) eqn:G; [|reflexivity]. exfalso.
    assert (Hin : In k (map fst (filter (fun kv => g (fst kv)) l)))
      by (rewrite map_fst_filter, filter_In; split; assumption).
    apply od_mem_in in Hin. congruence.
Qed.

(** [generate_output] writes the top-level rules of a processed
    stylesheet in three sections: the [:root] rules, the base rules
    ([*], [html], [body] in that order, then the selectors starting with
    [::]) and all the others, grouped as headings, elements, classes,
    ids and pseudo-classes.  Every top-level rule is written exactly
    once: the three sections together hold a permutation of the
    top-level rules. *)
Theorem top_level_rules_emitted_once (P : parser) (ns : list node) :
  let c := process_stylesheet P ns init in
  generate_output c
  = finalize (header ++ at_rules_section (at_rules c) ++ root_section (root_rules c) ++
              base_section (base_rules c) ++ main_section (main_rules c) ++
              media_section (media_queries c))
  /\ base_section (base_rules c)
     = match base_rules c with
       | [] => ""
       | _ => "/* ===== RESET ET BASE ===== */" ++ nl ++
              sconcat (map emit_rule (base_order (base_rules c)))
       end
  /\ main_section (main_rules c)
     = match main_rules c with
       | [] => ""
       | _ => "/* ===== RÈGLES PRINCIPALES ===== */" ++ nl ++
              sconcat (map (fun kv => py_replace empty_comment "" (to_css (snd kv) four) ++ nl2)
                           (main_order (main_rules c)))
       end
  /\ Permutation (app (root_rules c) (app (base_order (base_rules c)) (main_order (main_rules c))))
                 (rules c).
Proof.
  intros c.
  destruct (process_stylesheet_nodup P ns init
              (conj (NoDup_nil _) (Forall_nil _))) as [Hr _].
  fold c in Hr.
  split; [reflexivity|]. split; [apply base_section_order|]. split; [apply main_section_order|].
  assert (Hf : forall g : string -> bool,
             NoDup (map fst (filter (fun kv => g (fst kv)) (rules c)))).
  { intros g. rewrite map_fst_filter. apply NoDup_filter, Hr. }
  assert (Eroot : root_rules c = filter (fun kv => is_root (fst kv)) (rules c))
    by (apply od_of_nodup, (Hf is_root)).
  assert (Ebase : base_rules c = filter (fun kv => is_base (fst kv)) (rules c))
    by (apply od_of_nodup, (Hf is_base)).
  assert (Emain : main_rules c
                  = filter (fun kv => negb (is_root (fst kv)) && negb (is_base (fst kv))) (rules c)).
  { unfold main_rules.
    rewrite od_of_nodup by (apply (Hf (fun k => negb (od_mem k (root_rules c))
                                                && negb (od_mem k (base_rules c))))).
    apply filter_ext_in. intros [k r] Hin. apply (in_map fst) in Hin. cbn [fst] in Hin |- *.
    rewrite Eroot, Ebase, !od_mem_filter_fst by exact Hin. reflexivity. }
  assert (Hbase : NoDup (map fst (base_rules c))) by (rewrite Ebase; apply (Hf is_base)).
  assert (Hmain : NoDup (map fst (main_rules c)))
    by (rewrite Emain; apply (Hf (fun k => negb (is_root k) && negb (is_base k)))).
  rewrite (base_order_perm _ Hbase), (main_order_perm _ Hmain), Eroot, Ebase, Emain.
  apply (three_way_perm (fun kv : string * CSSRule => is_root (fst kv))
                        (fun kv => is_base (fst kv))).
  intros kv. apply is_root_not_base.
Qed.

(* ------------------------------------------------------------------ *)
(** ** At-rules other than [@media] and [@keyframes] *)

Lemma replace_keyframes_not_kf (name t : string) (l : list at_entry) :
  filter not_kf (replace_keyframes name t l) = filter not_kf l.
Proof.
  induction l as [|a l IH]; simpl; [reflexivity|].
  destruct (String.eqb (ar_keyword a) "keyframes") eqn:Ek; cbn [andb].
  - assert (Hn : not_kf a = false) by (unfold not_kf; rewrite Ek; reflexivity).
    destruct (match ar_name a with Some n => String.eqb n name | None => false end);
      cbn [filter].
    + assert (H1 : not_kf (mkAt (ar_keyword a) (ar_name a) t) = false)
        by (unfold not_kf; cbn [ar_keyword]; rewrite Ek; reflexivity).
      rewrite H1, Hn. reflexivity.
    + rewrite Hn, IH. reflexivity.
  - simpl. rewrite IH. reflexivity.
Qed.

(** Every top-level at-rule other than [@media] and [@keyframes] (for
    instance [@import] or [@font-face]) is stored once per occurrence,
    duplicates included, with its lowered keyword and its serialisation,
    after those already stored, in stylesheet order; the [@keyframes]
    handling never touches these entries. *)
Theorem plain_at_rules_kept_in_order (P : parser) (ns : list node) (c : compiler) :
  filter not_kf (at_rules (process_stylesheet P ns c))
  = app (filter not_kf (at_rules c)) (plain_at_entries ns).
Proof.
  revert c. induction ns as [|n ns IH]; intros c.
  - simpl. rewrite app_nil_r. reflexivity.
  - rewrite process_stylesheet_cons, IH. unfold plain_at_entries. cbn [flat_map].
    fold (plain_at_entries ns). rewrite app_assoc. f_equal.
    destruct n as [p b|kw p b|m]; cbn [process_node].
    + rewrite process_qualified_rule_at_rules, app_nil_r. reflexivity.
    + unfold process_at_rule.
      destruct (String.eqb (ascii_lower kw) "media") eqn:Em; cbn [orb].
      * rewrite app_nil_r. destruct b as [b|]; [destruct (is_empty b)|];
          try rewrite media_body_at_rules; reflexivity.
      * destruct (String.eqb (ascii_lower kw) "keyframes") eqn:Ek; cbn [at_rules].
        -- rewrite app_nil_r. destruct (find_keyframes _ _).
           ++ apply replace_keyframes_not_kf.
           ++ rewrite filter_app. simpl. unfold not_kf at 2. cbn [ar_keyword].
              rewrite Ek. simpl. rewrite app_nil_r. reflexivity.
        -- rewrite filter_app. simpl. unfold not_kf at 2. cbn [ar_keyword].
           rewrite Ek. reflexivity.
    + rewrite app_nil_r. reflexivity.
Qed.
